(** * fontHelper: font loading, Quill registration and CSS injection

    A shallow embedding of [src/fontHelper.ts] (the custom rich text control
    of POC-RichTextEditor-QuillReact) and the properties of its font
    pipeline: the data-URI loader, the attributor registrar, the style
    injector, the cleanup routine and the orchestrator [applyFonts].

    Conventions of the embedding.
    - A JavaScript string is a [string], a sequence of 8-bit characters;
      [toLowerCase] acts on the letters A-Z.  No other character lower-cases
      to a letter of [ttf], [otf], [woff], [woff2], [eot] or [.css], so the
      comparisons the code makes after [toLowerCase] come out as in the
      browser.
    - [Record<string, string>] is an object literal: its own properties
      are a [gmap string string].  Reading [o[k]] ([Js.get]) finds an own
      property first and otherwise what the object inherits from
      [Object.prototype]; writing [o[k] = v] ([Js.set]) makes an own
      property, except under [__proto__], where the inherited setter takes
      the string and drops it.  A built-in function prints in a template
      literal as Chromium and Node print it.
    - The document is the ordered list of the elements of [document.head],
      where the helper puts its elements and where the ids it uses are
      looked for; [getElementById] returns the first element carrying the
      id.
    - A promise is described by the way it settles ([Settled]).  The
      network and the [FileReader] are an oracle giving the outcome of each
      request; the order in which pending requests are answered is a
      parameter too.
    - What the helper does to the outside (requests, console output, calls
      to the registry of the editor) is appended to a log; two more marks
      record the control points of [applyFonts]. *)

From Stdlib Require Import Ascii.
From stdpp Require Import base list strings gmap.

(** ** JavaScript string primitives *)

Module Js.

(** [s.startsWith(p)] *)
Definition startsWith (p s : string) : bool := String.prefix p s.

(** [s.includes(p)] *)
Fixpoint includes (p s : string) : bool :=
  String.prefix p s ||
  match s with
  | EmptyString => false
  | String _ s' => includes p s'
  end.

(** [s.endsWith(p)] *)
Definition endsWith (p s : string) : bool :=
  String.prefix (String.rev p) (String.rev s).

Definition lower_ascii (c : ascii) : ascii :=
  let n := nat_of_ascii c in
  if (65 <=? n) && (n <=? 90) then ascii_of_nat (n + 32) else c.

(** [s.toLowerCase()] *)
Fixpoint toLowerCase (s : string) : string :=
  match s with
  | EmptyString => EmptyString
  | String c s' => String (lower_ascii c) (toLowerCase s')
  end.

(** [s.split(sep)] for a separator of one character: never empty. *)
Fixpoint split (sep : ascii) (s : string) : list string :=
  match s with
  | EmptyString => [EmptyString]
  | String c s' =>
      if Ascii.eqb c sep then EmptyString :: split sep s'
      else match split sep s' with
           | [] => [String c EmptyString]
           | seg :: segs => String c seg :: segs
           end
  end.

(** A value that is a string or [undefined], as a template literal
    prints it. *)
Definition interpolate (v : option string) : string :=
  match v with
  | Some s => s
  | None => "undefined"
  end.

(** Truthiness of a string. *)
Definition truthy (s : string) : bool :=
  match s with
  | EmptyString => false
  | String _ _ => true
  end.

(** Truthiness of a string, [null] or [undefined]. *)
Definition truthy_value (v : option string) : bool :=
  match v with
  | Some s => truthy s
  | None => false
  end.

(** What reading a property of an object literal with string properties
    gives: [undefined], an own string, a built-in function inherited from
    [Object.prototype], or (under [__proto__]) [Object.prototype] itself. *)
Inductive Value :=
| VUndefined
| VString (s : string)
| VFunction (fname : string)
| VObjectPrototype.

(** The methods of [Object.prototype], each the name of the function it
    holds. *)
Definition objectPrototypeMethods : list string :=
  [ "hasOwnProperty"; "isPrototypeOf"; "propertyIsEnumerable"; "toLocaleString";
    "toString"; "valueOf"; "__defineGetter__"; "__defineSetter__";
    "__lookupGetter__"; "__lookupSetter__" ].

(** The property names every object literal inherits. *)
Definition inherited (k : string) : bool :=
  bool_decide (k ∈ "constructor" :: "__proto__" :: objectPrototypeMethods).

(** [Object.prototype[k]] *)
Definition objectPrototype (k : string) : Value :=
  if bool_decide (k = "constructor") then VFunction "Object"
  else if bool_decide (k = "__proto__") then VObjectPrototype
  else if bool_decide (k ∈ objectPrototypeMethods) then VFunction k
  else VUndefined.

(** [o[k]] *)
Definition get (o : gmap string string) (k : string) : Value :=
  match o !! k with
  | Some s => VString s
  | None => objectPrototype k
  end.

(** [o[k] = v] *)
Definition set (k v : string) (o : gmap string string) : gmap string string :=
  if bool_decide (k = "__proto__") && bool_decide (o !! k = None) then o
  else <[k := v]> o.

(** Truthiness of what a property holds. *)
Definition toBoolean (v : Value) : bool :=
  match v with
  | VUndefined => false
  | VString s => truthy s
  | VFunction _ | VObjectPrototype => true
  end.

(** What a property holds, as a template literal prints it. *)
Definition toString (v : Value) : string :=
  match v with
  | VUndefined => "undefined"
  | VString s => s
  | VFunction fname => "function " +:+ fname +:+ "() { [native code] }"
  | VObjectPrototype => "[object Object]"
  end.

End Js.

(** ** The data model *)

Record FontInfo := {
  name : string;
  quillValue : string;
  url : string;
  cssFamily : string
}.

(** ** MIME type of a font URL *)

Definition getFontMimeTypeFromUrl (url : string) : string :=
  let extension := Js.toLowerCase <$> last (Js.split "."%char url) in
  if bool_decide (extension = Some "ttf") then "font/ttf"
  else if bool_decide (extension = Some "otf") then "font/otf"
  else if bool_decide (extension = Some "woff") then "font/woff"
  else if bool_decide (extension = Some "woff2") then "font/woff2"
  else if bool_decide (extension = Some "eot") then "application/vnd.ms-fontobject"
  else "application/octet-stream".

(** The table of section 4.1 of the specification, on an extension. *)
Definition mime_of_extension (ext : string) : string :=
  if bool_decide (ext = "ttf") then "font/ttf"
  else if bool_decide (ext = "otf") then "font/otf"
  else if bool_decide (ext = "woff") then "font/woff"
  else if bool_decide (ext = "woff2") then "font/woff2"
  else if bool_decide (ext = "eot") then "application/vnd.ms-fontobject"
  else "application/octet-stream".

(** ** The world the helper acts on *)

(** An element of [document.head], by the properties the helper reads or
    sets.  [createElement] leaves them empty. *)
Record Element := {
  el_tag : string;
  el_id : string;
  el_rel : string;
  el_href : string;
  el_innerHTML : string
}.

(** A value thrown or passed to [reject]. *)
Inductive JsError :=
| Error (message : string).

(** The font attributor class of the editor library. *)
Record Attributor := {
  attrName : string;
  keyName : string;
  whitelist : list string
}.

(** What the helper does that can be observed from outside, in order.
    [ESettled] and [EInject] mark control points of [applyFonts]: the
    promise of the callback of descriptor [i] has settled; the style
    injector is entered with the map [m]. *)
Inductive Event :=
| EFetch (url : string)
| EConsoleError (msg : string) (err : JsError)
| EConsoleWarn (msg : string)
| EQuillRegister (path : string) (overwrite : bool) (a : Attributor)
| ESettled (i : nat)
| EInject (m : gmap string string).

Record World := {
  document : list Element;
  imports : gmap string Attributor;
  log : list Event
}.

Definition set_document (d : list Element) (w : World) : World :=
  {| document := d; imports := imports w; log := log w |}.

Definition set_imports (r : gmap string Attributor) (w : World) : World :=
  {| document := document w; imports := r; log := log w |}.

Definition emit (e : Event) (w : World) : World :=
  {| document := document w; imports := imports w; log := log w ++ [e] |}.

(** *** The document *)

Definition createElement (tag : string) : Element :=
  {| el_tag := tag; el_id := ""; el_rel := ""; el_href := ""; el_innerHTML := "" |}.

Definition has_id (i : string) (e : Element) : bool :=
  bool_decide (el_id e = i).

(** Position of the first element carrying the id. *)
Fixpoint index_of_id (i : string) (d : list Element) : option nat :=
  match d with
  | [] => None
  | e :: d' => if has_id i e then Some 0 else S <$> index_of_id i d'
  end.

(** [document.getElementById(i)] *)
Definition getElementById (i : string) (d : list Element) : option Element :=
  k ← index_of_id i d; d !! k.

(** [document.head.appendChild(e)] *)
Definition appendChild (e : Element) (d : list Element) : list Element :=
  d ++ [e].

(** [el.remove()] on the element found under the id [i], if any. *)
Definition removeById (i : string) (d : list Element) : list Element :=
  match index_of_id i d with
  | Some k => delete k d
  | None => d
  end.

Definition set_id (i : string) (e : Element) : Element :=
  {| el_tag := el_tag e; el_id := i; el_rel := el_rel e;
     el_href := el_href e; el_innerHTML := el_innerHTML e |}.

Definition set_rel (r : string) (e : Element) : Element :=
  {| el_tag := el_tag e; el_id := el_id e; el_rel := r;
     el_href := el_href e; el_innerHTML := el_innerHTML e |}.

Definition set_href (h : string) (e : Element) : Element :=
  {| el_tag := el_tag e; el_id := el_id e; el_rel := el_rel e;
     el_href := h; el_innerHTML := el_innerHTML e |}.

Definition set_innerHTML (html : string) (e : Element) : Element :=
  {| el_tag := el_tag e; el_id := el_id e; el_rel := el_rel e;
     el_href := el_href e; el_innerHTML := html |}.

(** ** The style injector *)

Definition nl : string := String "010"%char EmptyString.
Definition dq : string := String "034"%char EmptyString.

Definition styleId : string := "quill-dynamic-font-style".

Definition linkId (font : FontInfo) : string :=
  "font-link-" +:+ quillValue font.

(** The [@font-face] block appended to [allFontCss]. *)
Definition fontFaceCss (family src format : string) : string :=
  nl +:+
  "@font-face {" +:+ nl +:+
  "  font-family: '" +:+ family +:+ "';" +:+ nl +:+
  "  src: url('" +:+ src +:+ "') format('" +:+ format +:+ "');" +:+ nl +:+
  "  font-weight: normal; /* Customize if your font has specific weights */" +:+ nl +:+
  "  font-style: normal;  /* Customize if your font has specific styles */" +:+ nl +:+
  "  font-display: swap; /* Add this for better font loading behavior */" +:+ nl +:+
  "}" +:+ nl.

(** The rule of the dropdown picker label. *)
Definition pickerLabelCss (font : FontInfo) : string :=
  "/* Styles for font picker dropdown label */" +:+ nl +:+
  ".ql-picker.ql-font .ql-picker-label[data-value=" +:+ dq +:+ quillValue font +:+ dq +:+ "]::before," +:+ nl +:+
  ".ql-picker.ql-font .ql-picker-item[data-value=" +:+ dq +:+ quillValue font +:+ dq +:+ "]::before {" +:+ nl +:+
  "  content: " +:+ dq +:+ name font +:+ dq +:+ "; /* Displays the user-friendly name in the dropdown */" +:+ nl +:+
  "  font-family: " +:+ cssFamily font +:+ "; /* Applies the cssFamily (e.g., 'Virgin Money Loop, sans-serif') */" +:+ nl +:+
  "}" +:+ nl.

(** The rule of the content class in the editor. *)
Definition contentClassCss (font : FontInfo) : string :=
  "/* Styles for actual content in the editor */" +:+ nl +:+
  ".ql-font-" +:+ quillValue font +:+ " {" +:+ nl +:+
  "  font-family: " +:+ cssFamily font +:+ "; /* Applies the cssFamily (e.g., 'Virgin Money Loop, sans-serif') */" +:+ nl +:+
  "}" +:+ nl.

(** The block appended for every font, whatever its source. *)
Definition quillFontCss (font : FontInfo) : string :=
  nl +:+ pickerLabelCss font +:+ contentClassCss font.

(** [getFontMimeTypeFromUrl(font.url).split('/')[1]], then [ttf] turned
    into [truetype]. *)
Definition fontFormatInCss (url : string) : string :=
  let format := Js.split "/"%char (getFontMimeTypeFromUrl url) !! 1 in
  if bool_decide (format = Some "ttf") then "truetype" else Js.interpolate format.

Definition isExternalCssLink (font : FontInfo) : bool :=
  Js.startsWith "http" (url font) &&
  (Js.endsWith ".css" (Js.toLowerCase (url font)) || Js.includes "family=" (url font)).

Definition isExternalFontFile (font : FontInfo) : bool :=
  Js.startsWith "http" (url font) && negb (isExternalCssLink font) &&
  negb (bool_decide (getFontMimeTypeFromUrl (url font) = "application/octet-stream")).

Definition isLocalFontFile (font : FontInfo) : bool :=
  Js.truthy (url font) && negb (Js.startsWith "http" (url font)).

(** The link element created for an external stylesheet. *)
Definition fontLink (font : FontInfo) : Element :=
  set_href (url font) (set_rel "stylesheet" (set_id (linkId font) (createElement "link"))).

Definition dataUriWarning (font : FontInfo) : Event :=
  EConsoleWarn ("Font data URI not found for " +:+ name font +:+
                ". Skipping @font-face injection.").

(** One turn of [fonts.forEach] in [injectFontStyles], on the text
    accumulated in [allFontCss] and the world. *)
Definition injectFont (loadedFontDataUris : gmap string string) (font : FontInfo)
    (st : string * World) : string * World :=
  let '(allFontCss, w) := st in
  let '(allFontCss, w) :=
    if isExternalCssLink font then
      match getElementById (linkId font) (document w) with
      | Some _ => (allFontCss, w)
      | None => (allFontCss, set_document (appendChild (fontLink font) (document w)) w)
      end
    else if isExternalFontFile font then
      (allFontCss +:+ fontFaceCss (name font) (url font) (fontFormatInCss (url font)), w)
    else if isLocalFontFile font then
      let dataUri := Js.get loadedFontDataUris (name font) in
      if Js.toBoolean dataUri then
        (allFontCss +:+
           fontFaceCss (name font) (Js.toString dataUri) (fontFormatInCss (url font)), w)
      else (allFontCss, emit (dataUriWarning font) w)
    else (allFontCss, w) in
  (allFontCss +:+ quillFontCss font, w).

(** The style element is looked up (or created and appended) first; the
    text is assigned to that same node at the end.  Nodes keep their
    position while the loop runs, since it only appends. *)
Definition injectFontStyles (fonts : list FontInfo)
    (loadedFontDataUris : gmap string string) (w : World) : World :=
  let '(style, w) :=
    match index_of_id styleId (document w) with
    | Some k => (k, w)
    | None =>
        (length (document w),
         set_document (appendChild (set_id styleId (createElement "style")) (document w)) w)
    end in
  let '(allFontCss, w) := foldl (fun st font => injectFont loadedFontDataUris font st) ("", w) fonts in
  set_document (alter (set_innerHTML allFontCss) style (document w)) w.

(** ** Cleanup *)

Definition cleanupFontStyles (fonts : list FontInfo) (w : World) : World :=
  let w := set_document (removeById styleId (document w)) w in
  foldl (fun w font => set_document (removeById (linkId font) (document w)) w) w fonts.

(** ** The attributor registrar *)

(** How a synchronous call completes. *)
Inductive Completion (A : Type) :=
| Normal (a : A)
| Throw (e : JsError).
Arguments Normal {A} a.
Arguments Throw {A} e.

(** How a promise settles. *)
Inductive Settled (A : Type) :=
| Fulfilled (a : A)
| Rejected (e : JsError).
Arguments Fulfilled {A} a.
Arguments Rejected {A} e.

Module Quill.

(** [Quill.import(path)]: the class registered under the path, if any. *)
Definition import (path : string) (w : World) : option Attributor :=
  imports w !! path.

(** [Quill.register(target, overwrite)] for an attributor: it is stored
    under [formats/] and its name; without the flag the library warns
    when something is replaced. *)
Definition register (target : Attributor) (overwrite : bool) (w : World) : World :=
  let path := "formats/" +:+ attrName target in
  let w :=
    if bool_decide (is_Some (imports w !! path)) && negb overwrite
    then emit (EConsoleWarn ("Overwriting " +:+ path +:+ " with")) w
    else w in
  emit (EQuillRegister path overwrite target)
       (set_imports (<[path := target]> (imports w)) w).

End Quill.

Definition set_whitelist (l : list string) (a : Attributor) : Attributor :=
  {| attrName := attrName a; keyName := keyName a; whitelist := l |}.

(** The class returned by [Quill.import] is the object held by the
    registry: assigning its [whitelist] changes it in place there.  With no
    class under [formats/font] the assignment throws a [TypeError]. *)
Definition registerQuillFonts (fonts : list FontInfo) (w : World) : Completion unit * World :=
  match Quill.import "formats/font" w with
  | None =>
      (Throw (Error "TypeError: Cannot set properties of undefined (setting 'whitelist')"), w)
  | Some FontAttributor =>
      let FontAttributor := set_whitelist (quillValue <$> fonts) FontAttributor in
      let w := set_imports (<["formats/font" := FontAttributor]> (imports w)) w in
      (Normal (), Quill.register FontAttributor true w)
  end.

(** ** The data-URI loader *)

(** What the environment answers: to [readAsDataURL], to [response.blob()]
    and to [fetch]. *)
Inductive ReadOutcome :=
| ReadLoad (result : string)
| ReadFail (error : JsError)
| ReadAbort.

Inductive BlobOutcome :=
| BlobFail (e : JsError)
| BlobOk (r : ReadOutcome).

Inductive FetchOutcome :=
| FetchFail (e : JsError)
| FetchResponse (ok : bool) (statusText : string) (body : BlobOutcome).

(** The promise built around the [FileReader]: [onerror] logs and rejects
    with [reader.error]; [onloadend] resolves with a string result and
    rejects otherwise (after [onerror] that second rejection is void). *)
Definition readAsDataURL (r : ReadOutcome) (w : World) : Settled string * World :=
  match r with
  | ReadLoad result => (Fulfilled result, w)
  | ReadFail error => (Rejected error, emit (EConsoleError "FileReader error:" error) w)
  | ReadAbort => (Rejected (Error "FileReader did not return a string result."), w)
  end.

(** The [try] block, from the moment [fetch] answers.  It either throws
    (inside an [await], or by its own [throw]) or returns the promise of
    the reader, which it does not await. *)
Definition tryFetchFont (fontUrl : string) (o : FetchOutcome) (w : World)
    : Completion (Settled string) * World :=
  match o with
  | FetchFail e => (Throw e, w)
  | FetchResponse ok statusText body =>
      if negb ok then
        (Throw (Error ("Failed to fetch font file from " +:+ fontUrl +:+ ": " +:+ statusText)), w)
      else
        match body with
        | BlobFail e => (Throw e, w)
        | BlobOk r => let '(p, w) := readAsDataURL r w in (Normal p, w)
        end
  end.

(** The [try]/[catch] of [getFontDataUri] once the request is out.  A throw
    in the block is caught, logged and turned into [null].  A returned
    promise settles the promise of the async function as it settles itself:
    by then the block is left and [catch] no longer applies. *)
Definition settleFontDataUri (fontUrl : string) (o : FetchOutcome) (w : World)
    : Settled (option string) * World :=
  let '(c, w) := tryFetchFont fontUrl o w in
  match c with
  | Normal (Fulfilled result) => (Fulfilled (Some result), w)
  | Normal (Rejected e) => (Rejected e, w)
  | Throw error =>
      (Fulfilled None,
       emit (EConsoleError ("Error loading font from " +:+ fontUrl +:+ ":") error) w)
  end.

Definition getFontDataUri (net : string → FetchOutcome) (fontUrl : string) (w : World)
    : Settled (option string) * World :=
  if Js.startsWith "http" fontUrl || negb (Js.truthy fontUrl) then (Fulfilled None, w)
  else settleFontDataUri fontUrl (net fontUrl) (emit (EFetch fontUrl) w).

(** ** The orchestrator *)

(** The order in which pending requests are answered is the environment's:
    with [n] requests pending, the one at position [sched n] (modulo [n])
    is answered next. *)
Fixpoint completion_order {A : Type} (sched : nat → nat) (n : nat) (pending : list A) : list A :=
  match n with
  | 0 => []
  | S n' =>
      let k := sched n mod length pending in
      match pending !! k with
      | Some t => t :: completion_order sched n' (delete k pending)
      | None => []
      end
  end.

(** The callbacks of [fonts.map] that reach [getFontDataUri], with the
    position of their descriptor. *)
Definition localFonts (fonts : list FontInfo) : list (nat * FontInfo) :=
  List.filter (fun t => isLocalFontFile t.2) (imap pair fonts).

(** The callbacks resume as their requests are answered, each taken as a
    whole from the answer to its end (it logs at most once and writes the
    map at most once).  A callback whose [await] rejects rejects its
    promise, hence [Promise.all] and [applyFonts]; what the other callbacks
    do afterwards is no longer awaited by anyone and is left out. *)
Fixpoint settleFonts (net : nat → string → FetchOutcome) (order : list (nat * FontInfo))
    (loadedFontDataUris : gmap string string) (w : World)
    : Settled unit * gmap string string * World :=
  match order with
  | [] => (Fulfilled (), loadedFontDataUris, w)
  | (i, font) :: order =>
      let '(r, w) := settleFontDataUri (url font) (net i (url font)) w in
      match r with
      | Rejected e => (Rejected e, loadedFontDataUris, emit (ESettled i) w)
      | Fulfilled dataUri =>
          let loadedFontDataUris :=
            if Js.truthy_value dataUri
            then Js.set (name font) (Js.interpolate dataUri) loadedFontDataUris
            else loadedFontDataUris in
          settleFonts net order loadedFontDataUris (emit (ESettled i) w)
      end
  end.

(** [applyFonts]: every callback runs up to its first [await] (the
    requests leave in the order of the list), then the answers come in the
    order of the scheduler. *)
Definition applyFonts (net : nat → string → FetchOutcome) (sched : nat → nat)
    (fonts : list FontInfo) (w : World) : Settled unit * World :=
  let pending := localFonts fonts in
  let w := foldl (fun w t => emit (EFetch (url t.2)) w) w pending in
  let '(r, loadedFontDataUris, w) :=
    settleFonts net (completion_order sched (length pending) pending) ∅ w in
  match r with
  | Rejected e => (Rejected e, w)
  | Fulfilled _ =>
      let '(c, w) := registerQuillFonts fonts w in
      match c with
      | Throw e => (Rejected e, w)
      | Normal _ =>
          (Fulfilled (), injectFontStyles fonts loadedFontDataUris (emit (EInject loadedFontDataUris) w))
      end
  end.

(** ** Vocabulary of the properties *)

(** The request failed: [fetch] rejected, the status is not 2xx, or the
    body could not be read. *)
Definition fetch_failed (o : FetchOutcome) : bool :=
  match o with
  | FetchFail _ => true
  | FetchResponse ok _ body =>
      negb ok || match body with BlobFail _ => true | BlobOk _ => false end
  end.

(** The request was answered but the [FileReader] did not produce a
    string. *)
Definition decode_failed (o : FetchOutcome) : bool :=
  match o with
  | FetchResponse true _ (BlobOk (ReadFail _ | ReadAbort)) => true
  | _ => false
  end.

(** The data URL read from the answer, if all went well. *)
Definition loaded (o : FetchOutcome) : option string :=
  match o with
  | FetchResponse true _ (BlobOk (ReadLoad result)) => Some result
  | _ => None
  end.

(** A network on which the font file is served and cannot be read. *)
Definition unreadable_net (error : JsError) (fontUrl : string) : FetchOutcome :=
  FetchResponse true "OK" (BlobOk (ReadFail error)).

(** The [@font-face] block a descriptor contributes, if any. *)
Definition fontFaceOf (loadedFontDataUris : gmap string string) (font : FontInfo) : string :=
  if isExternalCssLink font then ""
  else if isExternalFontFile font then
    fontFaceCss (name font) (url font) (fontFormatInCss (url font))
  else if isLocalFontFile font && Js.toBoolean (Js.get loadedFontDataUris (name font)) then
    fontFaceCss (name font) (Js.toString (Js.get loadedFontDataUris (name font)))
                (fontFormatInCss (url font))
  else "".

(** The warning a descriptor causes, if any. *)
Definition warningOf (loadedFontDataUris : gmap string string) (font : FontInfo) : list Event :=
  if negb (isExternalCssLink font) && negb (isExternalFontFile font) && isLocalFontFile font
     && negb (Js.toBoolean (Js.get loadedFontDataUris (name font)))
  then [dataUriWarning font] else [].

(** The link a descriptor adds to the document, if any. *)
Definition ensureLink (d : list Element) (font : FontInfo) : list Element :=
  if isExternalCssLink font then
    match getElementById (linkId font) d with
    | Some _ => d
    | None => appendChild (fontLink font) d
    end
  else d.

(** The text a descriptor contributes to the style element. *)
Definition fontCss (loadedFontDataUris : gmap string string) (font : FontInfo) : string :=
  fontFaceOf loadedFontDataUris font +:+ quillFontCss font.

(** The text of all descriptors, in their order. *)
Definition cssOfFonts (m : gmap string string) (fonts : list FontInfo) : string :=
  foldr (fun font css => fontCss m font +:+ css) "" fonts.

(** The document with the style element in place, and its position. *)
Definition ensureStyle (d : list Element) : list Element :=
  match index_of_id styleId d with
  | Some _ => d
  | None => appendChild (set_id styleId (createElement "style")) d
  end.

Definition styleIndex (d : list Element) : nat :=
  match index_of_id styleId d with
  | Some k => k
  | None => length d
  end.

(** An id names at most one element of the document. *)
Definition ids_unique (d : list Element) : Prop :=
  ∀ i, i ≠ "" → length (List.filter (has_id i) d) ≤ 1.

(** The elements the cleanup is after: the style element and the links
    of the descriptors. *)
Definition targeted (fonts : list FontInfo) (e : Element) : bool :=
  has_id styleId e || existsb (fun font => has_id (linkId font) e) fonts.

(** The events of [applyFonts] before the registrar is called: requests,
    console output of the loader, settlements. *)
Definition is_loading (e : Event) : Prop :=
  match e with
  | EFetch _ | EConsoleError _ _ | ESettled _ => True
  | _ => False
  end.

(** The events of the injector. *)
Definition is_warning (e : Event) : Prop :=
  match e with
  | EConsoleWarn _ => True
  | _ => False
  end.

(** A network that serves the second descriptor and answers 404 to the
    others. *)
Definition sample_net (i : nat) (fontUrl : string) : FetchOutcome :=
  match i with
  | 1 => FetchResponse true "OK" (BlobOk (ReadLoad "data:font/woff2;base64,d09GMgABAAAA"))
  | _ => FetchResponse false "Not Found" (BlobFail (Error "unused"))
  end.

Definition sample_fonts : list FontInfo :=
  [ {| name := "Arial"; quillValue := "arial"; url := ""; cssFamily := "Arial, sans-serif" |};
    {| name := "Custom"; quillValue := "custom-font"; url := "/fonts/custom.woff2";
       cssFamily := "Custom" |};
    {| name := "Missing"; quillValue := "missing"; url := "/fonts/missing.ttf";
       cssFamily := "Missing, serif" |} ].

Definition sample_world : World :=
  {| document := [];
     imports := {[ "formats/font" := {| attrName := "font"; keyName := "ql-font";
                                        whitelist := ["serif"; "monospace"] |} ]};
     log := [] |}.

(** ** The other variant of the helper

    The repository holds a second copy of the helper; the specification
    follows [fontHelper.ts] and notes where the two part.  The two places
    it names are set down here. *)

Module Variant.

(** No entry for eot. *)
Definition getFontMimeTypeFromUrl (url : string) : string :=
  let extension := Js.toLowerCase <$> last (Js.split "."%char url) in
  if bool_decide (extension = Some "ttf") then "font/ttf"
  else if bool_decide (extension = Some "otf") then "font/otf"
  else if bool_decide (extension = Some "woff") then "font/woff"
  else if bool_decide (extension = Some "woff2") then "font/woff2"
  else "application/octet-stream".

(** Only the Google Fonts service is skipped among the http URLs. *)
Definition getFontDataUri (net : string → FetchOutcome) (fontUrl : string) (w : World)
    : Settled (option string) * World :=
  if negb (Js.truthy fontUrl) then (Fulfilled None, w)
  else if Js.startsWith "http" fontUrl && Js.includes "fonts.googleapis.com" fontUrl
  then (Fulfilled None, w)
  else
    let w := emit (EFetch fontUrl) w in
    match net fontUrl with
    | FetchFail e =>
        (Fulfilled None,
         emit (EConsoleError ("Error loading font from " +:+ fontUrl +:+ ":") e) w)
    | FetchResponse ok statusText body =>
        if negb ok then
          (Fulfilled None,
           emit (EConsoleError ("Error loading font from " +:+ fontUrl +:+ ":")
                   (Error ("Failed to fetch font file from " +:+ fontUrl +:+ ": "
                           +:+ statusText))) w)
        else
          match body with
          | BlobFail e =>
              (Fulfilled None,
               emit (EConsoleError ("Error loading font from " +:+ fontUrl +:+ ":") e) w)
          | BlobOk (ReadLoad result) => (Fulfilled (Some result), w)
          | BlobOk (ReadFail error) => (Rejected error, w)
          | BlobOk ReadAbort =>
              (Rejected (Error "FileReader did not return a string result."), w)
          end
    end.

(** The registrar is the same. *)
Definition registerQuillFonts (fonts : list FontInfo) (w : World) : Completion unit * World :=
  match Quill.import "formats/font" w with
  | None =>
      (Throw (Error "TypeError: Cannot set properties of undefined (setting 'whitelist')"), w)
  | Some FontAttributor =>
      let FontAttributor := set_whitelist (quillValue <$> fonts) FontAttributor in
      let w := set_imports (<["formats/font" := FontAttributor]> (imports w)) w in
      (Normal (), Quill.register FontAttributor true w)
  end.

(** The [@font-face] block of the variant: no [font-display], no
    comments. *)
Definition fontFaceCss (family src format : string) : string :=
  nl +:+
  "@font-face {" +:+ nl +:+
  "  font-family: '" +:+ family +:+ "';" +:+ nl +:+
  "  src: url('" +:+ src +:+ "') format('" +:+ format +:+ "');" +:+ nl +:+
  "  font-weight: normal;" +:+ nl +:+
  "  font-style: normal;" +:+ nl +:+
  "}" +:+ nl.

(** The two scoping rules of the variant: the family is quoted and
    followed by sans-serif. *)
Definition quillFontCss (font : FontInfo) : string :=
  nl +:+
  ".ql-picker.ql-font .ql-picker-label[data-value=" +:+ dq +:+ quillValue font +:+ dq +:+ "]::before," +:+ nl +:+
  ".ql-picker.ql-font .ql-picker-item[data-value=" +:+ dq +:+ quillValue font +:+ dq +:+ "]::before {" +:+ nl +:+
  "  content: " +:+ dq +:+ name font +:+ dq +:+ ";" +:+ nl +:+
  "  font-family: '" +:+ cssFamily font +:+ "', sans-serif;" +:+ nl +:+
  "}" +:+ nl +:+
  nl +:+
  ".ql-font-" +:+ quillValue font +:+ " {" +:+ nl +:+
  "  font-family: '" +:+ cssFamily font +:+ "', sans-serif;" +:+ nl +:+
  "}" +:+ nl.

Definition fontFormatInCss (url : string) : string :=
  let format := Js.split "/"%char (getFontMimeTypeFromUrl url) !! 1 in
  if bool_decide (format = Some "ttf") then "truetype" else Js.interpolate format.

(** The one kind of remote URL the variant knows: a stylesheet of the
    Google Fonts service. *)
Definition isGoogleFontsLink (font : FontInfo) : bool :=
  Js.truthy (url font) && Js.startsWith "http" (url font)
  && Js.includes "fonts.googleapis.com" (url font).

(** One turn of [fonts.forEach] in the injector of the variant: no
    branch for remote font files, no warning. *)
Definition injectFont (fontDataUris : gmap string string) (font : FontInfo)
    (st : string * World) : string * World :=
  let '(allFontCss, w) := st in
  let '(allFontCss, w) :=
    if isGoogleFontsLink font then
      match getElementById (linkId font) (document w) with
      | Some _ => (allFontCss, w)
      | None => (allFontCss, set_document (appendChild (fontLink font) (document w)) w)
      end
    else if isLocalFontFile font then
      let dataUri := Js.get fontDataUris (name font) in
      if Js.toBoolean dataUri then
        (allFontCss +:+
           fontFaceCss (cssFamily font) (Js.toString dataUri) (fontFormatInCss (url font)), w)
      else (allFontCss, w)
    else (allFontCss, w) in
  (allFontCss +:+ quillFontCss font, w).

Definition injectFontStyles (fonts : list FontInfo)
    (fontDataUris : gmap string string) (w : World) : World :=
  let '(style, w) :=
    match index_of_id styleId (document w) with
    | Some k => (k, w)
    | None =>
        (length (document w),
         set_document (appendChild (set_id styleId (createElement "style")) (document w)) w)
    end in
  let '(allFontCss, w) := foldl (fun st font => injectFont fontDataUris font st) ("", w) fonts in
  set_document (alter (set_innerHTML allFontCss) style (document w)) w.

(** The cleanup of the variant removes with [document.head.removeChild],
    and looks for a link only where the injector would have made one. *)
Definition cleanupFontStyles (fonts : list FontInfo) (w : World) : World :=
  let w := set_document (removeById styleId (document w)) w in
  foldl (fun w font =>
           if isGoogleFontsLink font
           then set_document (removeById (linkId font) (document w)) w
           else w) w fonts.

(** The [try]/[catch] of the loader of the variant once the request is
    out: as in [fontHelper.ts], but a failure of the reader is not
    logged. *)
Definition settleFontDataUri (fontUrl : string) (o : FetchOutcome) (w : World)
    : Settled (option string) * World :=
  match o with
  | FetchFail e =>
      (Fulfilled None,
       emit (EConsoleError ("Error loading font from " +:+ fontUrl +:+ ":") e) w)
  | FetchResponse ok statusText body =>
      if negb ok then
        (Fulfilled None,
         emit (EConsoleError ("Error loading font from " +:+ fontUrl +:+ ":")
                 (Error ("Failed to fetch font file from " +:+ fontUrl +:+ ": "
                         +:+ statusText))) w)
      else
        match body with
        | BlobFail e =>
            (Fulfilled None,
             emit (EConsoleError ("Error loading font from " +:+ fontUrl +:+ ":") e) w)
        | BlobOk (ReadLoad result) => (Fulfilled (Some result), w)
        | BlobOk (ReadFail error) => (Rejected error, w)
        | BlobOk ReadAbort =>
            (Rejected (Error "FileReader did not return a string result."), w)
        end
  end.

Fixpoint settleFonts (net : nat → string → FetchOutcome) (order : list (nat * FontInfo))
    (fontDataUris : gmap string string) (w : World)
    : Settled unit * gmap string string * World :=
  match order with
  | [] => (Fulfilled (), fontDataUris, w)
  | (i, font) :: order =>
      let '(r, w) := settleFontDataUri (url font) (net i (url font)) w in
      match r with
      | Rejected e => (Rejected e, fontDataUris, emit (ESettled i) w)
      | Fulfilled dataUri =>
          let fontDataUris :=
            if Js.truthy_value dataUri
            then Js.set (name font) (Js.interpolate dataUri) fontDataUris
            else fontDataUris in
          settleFonts net order fontDataUris (emit (ESettled i) w)
      end
  end.

(** [applyFonts] of the variant: the registrar is called first, before
    any request is sent; a throw of the registrar rejects at once. *)
Definition applyFonts (net : nat → string → FetchOutcome) (sched : nat → nat)
    (fonts : list FontInfo) (w : World) : Settled unit * World :=
  let '(c, w) := registerQuillFonts fonts w in
  match c with
  | Throw e => (Rejected e, w)
  | Normal _ =>
      let pending := localFonts fonts in
      let w := foldl (fun w t => emit (EFetch (url t.2)) w) w pending in
      let '(r, fontDataUris, w) :=
        settleFonts net (completion_order sched (length pending) pending) ∅ w in
      match r with
      | Rejected e => (Rejected e, w)
      | Fulfilled _ =>
          (Fulfilled (), injectFontStyles fonts fontDataUris (emit (EInject fontDataUris) w))
      end
  end.

(** When the loader of the variant answers [null] without a request. *)
Definition skips (fontUrl : string) : bool :=
  negb (Js.truthy fontUrl)
  || (Js.startsWith "http" fontUrl && Js.includes "fonts.googleapis.com" fontUrl).

(** The [@font-face] block a descriptor contributes in the variant. *)
Definition fontFaceOf (fontDataUris : gmap string string) (font : FontInfo) : string :=
  if isGoogleFontsLink font then ""
  else if isLocalFontFile font && Js.toBoolean (Js.get fontDataUris (name font)) then
    fontFaceCss (cssFamily font) (Js.toString (Js.get fontDataUris (name font)))
                (fontFormatInCss (url font))
  else "".

Definition fontCss (fontDataUris : gmap string string) (font : FontInfo) : string :=
  fontFaceOf fontDataUris font +:+ quillFontCss font.

Definition cssOfFonts (m : gmap string string) (fonts : list FontInfo) : string :=
  foldr (fun font css => fontCss m font +:+ css) "" fonts.

(** The link a descriptor adds to the document in the variant. *)
Definition ensureLink (d : list Element) (font : FontInfo) : list Element :=
  if isGoogleFontsLink font then
    match getElementById (linkId font) d with
    | Some _ => d
    | None => appendChild (fontLink font) d
    end
  else d.

End Variant.

(** The event is a request. *)
Definition is_fetch (e : Event) : bool :=
  match e with
  | EFetch _ => true
  | _ => false
  end.

(** The URL is a local path: not empty and not starting with http. *)
Definition isLocalUrl (fontUrl : string) : bool :=
  Js.truthy fontUrl && negb (Js.startsWith "http" fontUrl).

(** * Properties *)

(** ** Strings *)

Section split.
Variable sep : ascii.

Lemma split_not_nil s : Js.split sep s ≠ [].
Proof. destruct s as [|c s]; simpl; [done|]. repeat case_match; done. Qed.

Lemma last_split_cons c s :
  2 ≤ length (Js.split sep s) →
  last (Js.split sep (String c s)) = last (Js.split sep s).
Proof.
  intros Hlen. simpl. destruct (Ascii.eqb c sep).
  - destruct (Js.split sep s); [simpl in Hlen; lia | done].
  - destruct (Js.split sep s) as [|seg [|seg' segs]]; simpl in *; [lia..|done].
Qed.

Lemma split_length_cons c s :
  length (Js.split sep s) ≤ length (Js.split sep (String c s)).
Proof.
  simpl. destruct (Ascii.eqb c sep); simpl; [lia|].
  destruct (Js.split sep s) eqn:E; simpl; lia.
Qed.

Lemma split_app_sep_length stem s :
  2 ≤ length (Js.split sep (stem +:+ String sep s)).
Proof.
  induction stem as [|c stem IH].
  - change (2 ≤ length (Js.split sep (String sep s))). simpl.
    rewrite Ascii.eqb_refl. simpl.
    pose proof (split_not_nil s). destruct (Js.split sep s); [done|simpl; lia].
  - change (2 ≤ length (Js.split sep (String c (stem +:+ String sep s)))).
    etrans; [exact IH | apply split_length_cons].
Qed.

(** The last segment is what follows the last separator. *)
Lemma last_split_app_sep stem s :
  last (Js.split sep (stem +:+ String sep s)) = last (Js.split sep s).
Proof.
  induction stem as [|c stem IH].
  - change (last (Js.split sep (String sep s)) = last (Js.split sep s)).
    simpl. rewrite Ascii.eqb_refl.
    pose proof (split_not_nil s). destruct (Js.split sep s); done.
  - change (last (Js.split sep (String c (stem +:+ String sep s)))
            = last (Js.split sep s)).
    rewrite last_split_cons; [exact IH | apply split_app_sep_length].
Qed.

(** A string without the separator is its own single segment. *)
Lemma split_no_sep s :
  Js.includes (String sep EmptyString) s = false → Js.split sep s = [s].
Proof.
  induction s as [|c s IH]; [done|].
  simpl. intros [Hc Hs]%orb_false_iff.
  destruct (Ascii.eqb_spec c sep) as [->|Hne].
  - exfalso. destruct (ascii_dec sep sep); [|done].
    destruct s; discriminate.
  - rewrite IH; done.
Qed.
End split.

Lemma mime_switch (e : string) :
  (if bool_decide (Some e = Some "ttf") then "font/ttf"
   else if bool_decide (Some e = Some "otf") then "font/otf"
   else if bool_decide (Some e = Some "woff") then "font/woff"
   else if bool_decide (Some e = Some "woff2") then "font/woff2"
   else if bool_decide (Some e = Some "eot") then "application/vnd.ms-fontobject"
   else "application/octet-stream") = mime_of_extension e.
Proof.
  unfold mime_of_extension.
  repeat (case_bool_decide; simplify_eq; try done).
Qed.

(** A URL without any dot: the whole string stands for the extension. *)
Lemma getFontMimeTypeFromUrl_no_dot (url : string) :
  Js.includes "." url = false →
  getFontMimeTypeFromUrl url = mime_of_extension (Js.toLowerCase url).
Proof.
  intros Hno. unfold getFontMimeTypeFromUrl.
  rewrite (split_no_sep "."%char url Hno). simpl. apply mime_switch.
Qed.

Lemma getFontMimeTypeFromUrl_stem_ext (stem ext : string) :
  Js.includes "." ext = false →
  getFontMimeTypeFromUrl (stem +:+ "." +:+ ext) = mime_of_extension (Js.toLowerCase ext).
Proof.
  intros Hno. unfold getFontMimeTypeFromUrl.
  change (stem +:+ "." +:+ ext) with (stem +:+ String "."%char ext).
  rewrite last_split_app_sep, (split_no_sep "."%char ext Hno). simpl.
  apply mime_switch.
Qed.

(** Every URL has an extension in the sense of the code: it has no dot,
    or it is a stem, a dot and a part without dot. *)
Lemma url_stem_ext (url : string) :
  Js.includes "." url = false
  ∨ ∃ stem ext, url = stem +:+ "." +:+ ext ∧ Js.includes "." ext = false.
Proof.
  induction url as [|c s IH]; [by left|].
  destruct IH as [Hno | (stem & ext & -> & Hno)].
  - destruct (Ascii.eqb_spec c "."%char) as [->|Hne].
    + right. by exists "", s.
    + left. cbn [Js.includes String.prefix].
      destruct (ascii_dec "." c) as [Heq|_]; [by destruct Hne|exact Hno].
  - right. by exists (String c stem), ext.
Qed.

(** C9. For every URL string the MIME type is the one the table gives for
    its extension, taken in lower case, where the extension is what
    follows the last dot (the whole string when there is no dot): ttf
    gives font/ttf, otf font/otf, woff font/woff, woff2 font/woff2, eot
    application/vnd.ms-fontobject, and any other extension
    application/octet-stream. *)
Theorem getFontMimeTypeFromUrl_table (url : string) :
  (∃ ext, (url = ext ∨ ∃ stem, url = stem +:+ "." +:+ ext)
          ∧ Js.includes "." ext = false
          ∧ getFontMimeTypeFromUrl url = mime_of_extension (Js.toLowerCase ext))
  ∧ mime_of_extension "ttf" = "font/ttf"
  ∧ mime_of_extension "otf" = "font/otf"
  ∧ mime_of_extension "woff" = "font/woff"
  ∧ mime_of_extension "woff2" = "font/woff2"
  ∧ mime_of_extension "eot" = "application/vnd.ms-fontobject"
  ∧ (∀ e, e ∉ ["ttf"; "otf"; "woff"; "woff2"; "eot"] →
          mime_of_extension e = "application/octet-stream").
Proof.
  split_and!; try reflexivity.
  - destruct (url_stem_ext url) as [Hno | (stem & ext & -> & Hno)].
    + exists url. split_and!; [by left | done | by apply getFontMimeTypeFromUrl_no_dot].
    + exists ext. split_and!; [right; by exists stem | done |].
      by apply getFontMimeTypeFromUrl_stem_ext.
  - intros e He. unfold mime_of_extension.
    repeat (case_bool_decide; [exfalso; apply He; subst; set_solver|]).
    done.
Qed.

Example getFontMimeTypeFromUrl_samples :
  getFontMimeTypeFromUrl "/fonts/Custom.v2.WOFF2" = "font/woff2"
  ∧ getFontMimeTypeFromUrl "/fonts/legacy.eot" = "application/vnd.ms-fontobject"
  ∧ getFontMimeTypeFromUrl "https://cdn.example.org/fonts.d/readme" = "application/octet-stream"
  ∧ getFontMimeTypeFromUrl "ttf" = "font/ttf".
Proof. split_and!; reflexivity. Qed.

(** ** The data-URI loader *)

(** C2. The loader answers [null] at once, with no request sent and the
    world untouched, for the empty string and for every string that
    begins with http. *)
Theorem getFontDataUri_skips (net : string → FetchOutcome) (w : World) :
  getFontDataUri net "" w = (Fulfilled None, w)
  ∧ ∀ rest, getFontDataUri net ("http" +:+ rest) w = (Fulfilled None, w).
Proof.
  split; [reflexivity|].
  intros rest. unfold getFontDataUri, Js.startsWith.
  change ("http" +:+ rest) with (String "h" (String "t" (String "t" (String "p" rest)))).
  destruct rest; reflexivity.
Qed.

(** For any other string a request is sent. *)
Lemma getFontDataUri_local (net : string → FetchOutcome) (fontUrl : string) (w : World) :
  Js.truthy fontUrl = true → Js.startsWith "http" fontUrl = false →
  getFontDataUri net fontUrl w
  = settleFontDataUri fontUrl (net fontUrl) (emit (EFetch fontUrl) w).
Proof. intros Ht Hh. unfold getFontDataUri. rewrite Ht, Hh. reflexivity. Qed.

Lemma outcome_cases (o : FetchOutcome) :
  fetch_failed o = true ∨ decode_failed o = true ∨ is_Some (loaded o).
Proof. destruct o as [|[] ? [|[]]]; simpl; eauto. Qed.

(** A failed request is caught: logged once, answered with [null]. *)
Lemma settleFontDataUri_fetch_failed (fontUrl : string) (o : FetchOutcome) (w : World) :
  fetch_failed o = true →
  ∃ error, settleFontDataUri fontUrl o w
           = (Fulfilled None,
              emit (EConsoleError ("Error loading font from " +:+ fontUrl +:+ ":") error) w).
Proof. destruct o as [|[] ? [|[]]]; simpl; try done; eauto. Qed.

Lemma settleFontDataUri_loaded (fontUrl : string) (o : FetchOutcome) (w : World) (result : string) :
  loaded o = Some result →
  settleFontDataUri fontUrl o w = (Fulfilled (Some result), w).
Proof. destruct o as [|[] ? [|[]]]; simpl; try done. by intros [= ->]. Qed.

(** A failure of the reader is not caught: the promise rejects. *)
Lemma settleFontDataUri_decode_failed (fontUrl : string) (o : FetchOutcome) (w : World) :
  decode_failed o = true →
  ∃ e w', settleFontDataUri fontUrl o w = (Rejected e, w').
Proof. destruct o as [|[] ? [|[]]]; simpl; try done; eauto. Qed.

(** C1 (the code at the failing input). The file is fetched with status
    200 and the [FileReader] fails: the promise of the loader rejects with
    the error of the reader instead of resolving to [null]. *)
Theorem getFontDataUri_reader_error_rejects :
  let error := Error "NotReadableError" in
  let w := {| document := []; imports := ∅; log := [] |} in
  getFontDataUri (unreadable_net error) "/fonts/custom.woff2" w
  = (Rejected error,
     {| document := []; imports := ∅;
        log := [EFetch "/fonts/custom.woff2"; EConsoleError "FileReader error:" error] |}).
Proof. reflexivity. Qed.

(** X24. A failed request (no answer, a status that is not ok, or a body
    that cannot be read as a blob) for a local URL is turned into [null] by the loader: the promise is fulfilled, and
    what is logged is the request and one error line naming the URL. *)
Lemma getFontDataUri_fetch_failed (net : string → FetchOutcome) (fontUrl : string) (w : World) :
  Js.truthy fontUrl = true → Js.startsWith "http" fontUrl = false →
  fetch_failed (net fontUrl) = true →
  ∃ error, getFontDataUri net fontUrl w
           = (Fulfilled None,
              emit (EConsoleError ("Error loading font from " +:+ fontUrl +:+ ":") error)
                   (emit (EFetch fontUrl) w)).
Proof.
  intros Ht Hh Hfail. rewrite getFontDataUri_local by done.
  by apply settleFontDataUri_fetch_failed.
Qed.

Lemma getFontDataUri_fetch_failed_witness :
  let net := fun _ : string => FetchResponse false "Not Found" (BlobFail (Error "unused")) in
  let w := {| document := []; imports := ∅; log := [] |} in
  ∃ error, getFontDataUri net "/fonts/missing.ttf" w
           = (Fulfilled None,
              {| document := []; imports := ∅;
                 log := [ EFetch "/fonts/missing.ttf";
                          EConsoleError "Error loading font from /fonts/missing.ttf:" error ] |}).
Proof.
  intros net w.
  exact (getFontDataUri_fetch_failed net "/fonts/missing.ttf" w eq_refl eq_refl eq_refl).
Defined.

(** Any failure of the reader makes the loader reject. *)
Lemma getFontDataUri_decode_failed (net : string → FetchOutcome) (fontUrl : string) (w : World) :
  Js.truthy fontUrl = true → Js.startsWith "http" fontUrl = false →
  decode_failed (net fontUrl) = true →
  ∃ e w', getFontDataUri net fontUrl w = (Rejected e, w').
Proof.
  intros Ht Hh Hfail. rewrite getFontDataUri_local by done.
  by apply settleFontDataUri_decode_failed.
Qed.

(** ** The attributor registrar *)

(** C8. With the font class registered under formats/font, the registrar
    sets its whitelist to the quillValues of the descriptors, in their
    order and whatever it held before, and registers the class again with
    the overwrite flag set; this is its one call to the registry. *)
Theorem registerQuillFonts_whitelist (fonts : list FontInfo) (w : World) (FontAttributor : Attributor) :
  Quill.import "formats/font" w = Some FontAttributor →
  ∃ w', registerQuillFonts fonts w = (Normal (), w')
    ∧ Quill.import "formats/font" w' = Some (set_whitelist (quillValue <$> fonts) FontAttributor)
    ∧ whitelist (set_whitelist (quillValue <$> fonts) FontAttributor) = quillValue <$> fonts
    ∧ log w' = log w ++ [EQuillRegister ("formats/" +:+ attrName FontAttributor) true
                                         (set_whitelist (quillValue <$> fonts) FontAttributor)]
    ∧ document w' = document w.
Proof.
  intros Himp. unfold registerQuillFonts. rewrite Himp.
  eexists. split; [reflexivity|].
  unfold Quill.register, Quill.import. rewrite andb_false_r. simpl.
  split_and!; try reflexivity.
  destruct (decide ("formats/" +:+ attrName FontAttributor = "formats/font")) as [->|Hne].
  - by rewrite lookup_insert_eq.
  - rewrite lookup_insert_ne by done. by rewrite lookup_insert_eq.
Qed.

Lemma registerQuillFonts_whitelist_witness :
  ∃ w', registerQuillFonts
          [ {| name := "Arial"; quillValue := "arial"; url := "";
               cssFamily := "Arial, sans-serif" |} ]
          {| document := [];
             imports := {[ "formats/font" :=
                             {| attrName := "font"; keyName := "ql-font";
                                whitelist := ["serif"; "monospace"] |} ]};
             log := [] |} = (Normal (), w')
    ∧ whitelist <$> Quill.import "formats/font" w' = Some ["arial"].
Proof.
  destruct (registerQuillFonts_whitelist
              [ {| name := "Arial"; quillValue := "arial"; url := "";
                   cssFamily := "Arial, sans-serif" |} ]
              {| document := [];
                 imports := {[ "formats/font" :=
                                 {| attrName := "font"; keyName := "ql-font";
                                    whitelist := ["serif"; "monospace"] |} ]};
                 log := [] |}
              {| attrName := "font"; keyName := "ql-font";
                 whitelist := ["serif"; "monospace"] |})
    as (w' & Hrun & Himp & _); [apply lookup_singleton_eq|].
  exists w'. split; [exact Hrun|]. rewrite Himp. reflexivity.
Defined.

(** Without the class the registrar throws and touches nothing. *)
Lemma registerQuillFonts_missing (fonts : list FontInfo) (w : World) :
  Quill.import "formats/font" w = None →
  ∃ e, registerQuillFonts fonts w = (Throw e, w).
Proof. intros Himp. unfold registerQuillFonts. rewrite Himp. eauto. Qed.

(** ** The style injector, one descriptor at a time *)

Lemma app_nil_r (s : string) : s +:+ "" = s.
Proof. induction s as [|c s IH]; [done|]. change (String c (s +:+ "") = String c s). by rewrite IH. Qed.

Lemma app_assoc (s1 s2 s3 : string) : (s1 +:+ s2) +:+ s3 = s1 +:+ s2 +:+ s3.
Proof.
  induction s1 as [|c s1 IH]; [done|].
  change (String c ((s1 +:+ s2) +:+ s3) = String c (s1 +:+ s2 +:+ s3)). by rewrite IH.
Qed.

Lemma emit_nil (w : World) :
  {| document := document w; imports := imports w; log := log w ++ [] |} = w.
Proof. destruct w; simpl. by rewrite List.app_nil_r. Qed.

Lemma injectFont_eq (m : gmap string string) (font : FontInfo) (css : string) (w : World) :
  injectFont m font (css, w)
  = (css +:+ fontCss m font,
     {| document := ensureLink (document w) font; imports := imports w;
        log := log w ++ warningOf m font |}).
Proof.
  unfold injectFont, fontCss, fontFaceOf, warningOf, ensureLink.
  destruct (isExternalCssLink font); simpl.
  { destruct (getElementById _ _); simpl; by rewrite emit_nil + (destruct w; simpl; rewrite List.app_nil_r). }
  destruct (isExternalFontFile font); simpl.
  { by rewrite emit_nil, app_assoc. }
  destruct (isLocalFontFile font); simpl; [|by rewrite emit_nil].
  destruct (Js.toBoolean _); simpl; [by rewrite emit_nil, app_assoc|done].
Qed.

Lemma cssOfFonts_app m fonts1 fonts2 :
  cssOfFonts m (fonts1 ++ fonts2) = cssOfFonts m fonts1 +:+ cssOfFonts m fonts2.
Proof.
  induction fonts1 as [|font fonts1 IH]; simpl; [done|].
  fold (cssOfFonts m (fonts1 ++ fonts2)) (cssOfFonts m fonts1). by rewrite IH, app_assoc.
Qed.

Lemma injectFont_foldl (m : gmap string string) (fonts : list FontInfo) (css : string) (w : World) :
  foldl (fun st font => injectFont m font st) (css, w) fonts
  = (css +:+ cssOfFonts m fonts,
     {| document := foldl ensureLink (document w) fonts; imports := imports w;
        log := log w ++ concat (warningOf m <$> fonts) |}).
Proof.
  revert css w. induction fonts as [|font fonts IH]; intros css w; cbn [foldl].
  - simpl. by rewrite app_nil_r, emit_nil.
  - rewrite injectFont_eq, IH. simpl.
    fold (cssOfFonts m fonts). by rewrite app_assoc, <-List.app_assoc.
Qed.

(** C10. A descriptor whose URL starts with http, is no stylesheet (it
    neither ends in .css nor contains family=) and has no known font
    extension adds no link to the document and no [@font-face] block to the
    text: its turn appends the picker-label and content-class rules only,
    and logs nothing. *)
Theorem injectFont_unrecognized_remote (m : gmap string string) (font : FontInfo)
    (css : string) (w : World) :
  Js.startsWith "http" (url font) = true →
  Js.endsWith ".css" (Js.toLowerCase (url font)) = false →
  Js.includes "family=" (url font) = false →
  getFontMimeTypeFromUrl (url font) = "application/octet-stream" →
  injectFont m font (css, w)
  = (css +:+ nl +:+ pickerLabelCss font +:+ contentClassCss font, w).
Proof.
  intros Hhttp Hcss Hfam Hmime.
  unfold injectFont, isExternalCssLink, isExternalFontFile, isLocalFontFile.
  rewrite Hhttp, Hcss, Hfam, Hmime. simpl. rewrite !andb_false_r. reflexivity.
Qed.

Lemma injectFont_unrecognized_remote_witness :
  let font := {| name := "Remote"; quillValue := "remote";
                 url := "https://cdn.example.org/fonts/remote.svg"; cssFamily := "Remote" |} in
  let w := {| document := []; imports := ∅; log := [] |} in
  injectFont ∅ font ("", w) = (nl +:+ pickerLabelCss font +:+ contentClassCss font, w).
Proof.
  exact (injectFont_unrecognized_remote ∅
           {| name := "Remote"; quillValue := "remote";
              url := "https://cdn.example.org/fonts/remote.svg"; cssFamily := "Remote" |}
           "" {| document := []; imports := ∅; log := [] |}
           eq_refl eq_refl eq_refl eq_refl).
Defined.

(** X25. A descriptor whose URL starts with http, is no stylesheet and ends in
    a known font extension gets an [@font-face] block whose src is the URL
    itself, with the format of the extension (truetype for ttf); the
    document and the log are left alone. *)
Theorem injectFont_external_file (m : gmap string string) (font : FontInfo)
    (css : string) (w : World) (stem ext : string) :
  url font = stem +:+ "." +:+ ext →
  Js.includes "." ext = false →
  Js.toLowerCase ext ∈ ["ttf"; "otf"; "woff"; "woff2"; "eot"] →
  Js.startsWith "http" (url font) = true →
  isExternalCssLink font = false →
  injectFont m font (css, w)
  = ((css +:+ fontFaceCss (name font) (url font) (fontFormatInCss (url font)))
       +:+ quillFontCss font, w)
  ∧ fontFormatInCss (url font)
    = (if bool_decide (Js.toLowerCase ext = "ttf") then "truetype"
       else if bool_decide (Js.toLowerCase ext = "eot") then "vnd.ms-fontobject"
       else Js.toLowerCase ext).
Proof.
  intros Hurl Hno Hext Hhttp Hcss.
  assert (Hmime : getFontMimeTypeFromUrl (url font) = mime_of_extension (Js.toLowerCase ext)).
  { rewrite Hurl. by apply getFontMimeTypeFromUrl_stem_ext. }
  assert (Hfile : isExternalFontFile font = true).
  { unfold isExternalFontFile. rewrite Hhttp, Hcss, Hmime. simpl.
    set_unfold in Hext. destruct Hext as [->|[->|[->|[->|[->|[]]]]]]; reflexivity. }
  split.
  - unfold injectFont. by rewrite Hcss, Hfile.
  - unfold fontFormatInCss. rewrite Hmime.
    set_unfold in Hext. destruct Hext as [->|[->|[->|[->|[->|[]]]]]]; reflexivity.
Qed.

Lemma injectFont_external_file_witness :
  let font := {| name := "Inter"; quillValue := "inter";
                 url := "https://cdn.example.org/fonts/inter.TTF"; cssFamily := "Inter" |} in
  let w := {| document := []; imports := ∅; log := [] |} in
  injectFont ∅ font ("", w)
  = (fontFaceCss "Inter" "https://cdn.example.org/fonts/inter.TTF" "truetype"
       +:+ quillFontCss font, w).
Proof.
  intros font w.
  destruct (injectFont_external_file ∅ font "" w "https://cdn.example.org/fonts/inter" "TTF")
    as [Hrun Hformat]; [reflexivity | reflexivity | by left | reflexivity | reflexivity |].
  rewrite Hrun, Hformat. reflexivity.
Defined.

(** A local descriptor is neither a stylesheet link nor a remote file. *)
Lemma isLocalFontFile_not_external (font : FontInfo) :
  isLocalFontFile font = true →
  isExternalCssLink font = false ∧ isExternalFontFile font = false.
Proof.
  unfold isLocalFontFile, isExternalCssLink, isExternalFontFile.
  intros [_ Hh%negb_true_iff]%andb_true_iff. by rewrite Hh.
Qed.

Lemma fontFormatInCss_ttf (stem ext : string) :
  Js.includes "." ext = false → Js.toLowerCase ext = "ttf" →
  fontFormatInCss (stem +:+ "." +:+ ext) = "truetype".
Proof.
  intros Hno Hext. unfold fontFormatInCss.
  rewrite getFontMimeTypeFromUrl_stem_ext, Hext by done. reflexivity.
Qed.

(** *** Reading the map *)

Lemma toBoolean_objectPrototype (k : string) :
  Js.toBoolean (Js.objectPrototype k) = Js.inherited k.
Proof.
  unfold Js.objectPrototype, Js.inherited.
  destruct (decide (k = "constructor")) as [->|H1]; [reflexivity|].
  destruct (decide (k = "__proto__")) as [->|H2]; [reflexivity|].
  rewrite (bool_decide_eq_false_2 _ H1), (bool_decide_eq_false_2 _ H2).
  destruct (decide (k ∈ Js.objectPrototypeMethods)) as [Hin|Hout].
  - rewrite (bool_decide_eq_true_2 _ Hin). simpl. symmetry. apply bool_decide_eq_true_2.
    by do 2 right.
  - rewrite (bool_decide_eq_false_2 _ Hout). simpl. symmetry. apply bool_decide_eq_false_2.
    rewrite !elem_of_cons. tauto.
Qed.

Lemma get_own (m : gmap string string) (k s : string) :
  m !! k = Some s → Js.get m k = Js.VString s.
Proof. unfold Js.get. by intros ->. Qed.

Lemma get_inherited (m : gmap string string) (k : string) :
  m !! k = None → Js.get m k = Js.objectPrototype k.
Proof. unfold Js.get. by intros ->. Qed.

(** When a read of the map is truthy: an own string that is not empty, or
    no own property and a name that [Object.prototype] provides. *)
Lemma toBoolean_get (m : gmap string string) (k : string) :
  Js.toBoolean (Js.get m k)
  = match m !! k with
    | Some s => Js.truthy s
    | None => Js.inherited k
    end.
Proof. unfold Js.get. destruct (m !! k); [done|apply toBoolean_objectPrototype]. Qed.

(** Writing the map: what is found afterwards was written or was there. *)
Lemma lookup_set_Some (m : gmap string string) (k v n u : string) :
  Js.set k v m !! n = Some u → (k = n ∧ v = u) ∨ m !! n = Some u.
Proof.
  unfold Js.set. destruct (_ && _); [by right|].
  destruct (decide (k = n)) as [->|Hne].
  - rewrite lookup_insert_eq. intros [= ->]. by left.
  - rewrite lookup_insert_ne by done. by right.
Qed.

Lemma lookup_set_eq (m : gmap string string) (k v : string) :
  k ≠ "__proto__" → Js.set k v m !! k = Some v.
Proof.
  intros Hk. unfold Js.set. rewrite (bool_decide_eq_false_2 _ Hk). simpl.
  by rewrite lookup_insert_eq.
Qed.

Lemma lookup_set_ne (m : gmap string string) (k v n : string) :
  k ≠ n → Js.set k v m !! n = m !! n.
Proof.
  intros Hne. unfold Js.set. destruct (_ && _); [done|]. by rewrite lookup_insert_ne.
Qed.

(** Under [__proto__] nothing is stored, unless an own property is there
    already. *)
Lemma set_proto (m : gmap string string) (v : string) :
  m !! "__proto__" = None → Js.set "__proto__" v m = m.
Proof. intros Hm. unfold Js.set. by rewrite Hm. Qed.

(** X27. For a descriptor with a local URL: when the map holds
    a non-empty data URI under its name, its turn appends an [@font-face]
    block whose family is the name and whose src is that data URI, with
    format truetype when the extension is ttf, and logs nothing; when the
    map holds nothing under the name and the name is not one that
    [Object.prototype] provides, or when it holds the empty string, no
    [@font-face] block is appended and the warning is logged.  When the
    map holds nothing under the name and [Object.prototype] provides it,
    the block is appended with the inherited value as src and nothing is
    logged.  The scoping rules follow in every case. *)
Theorem injectFont_local (m : gmap string string) (font : FontInfo) (css : string) (w : World) :
  isLocalFontFile font = true →
  let nl := String "010"%char EmptyString in
  let fontFace := fun src : string =>
    nl +:+
    "@font-face {" +:+ nl +:+
    "  font-family: '" +:+ name font +:+ "';" +:+ nl +:+
    "  src: url('" +:+ src +:+ "') format('" +:+ fontFormatInCss (url font) +:+ "');" +:+ nl +:+
    "  font-weight: normal; /* Customize if your font has specific weights */" +:+ nl +:+
    "  font-style: normal;  /* Customize if your font has specific styles */" +:+ nl +:+
    "  font-display: swap; /* Add this for better font loading behavior */" +:+ nl +:+
    "}" +:+ nl in
  (∀ dataUri, m !! name font = Some dataUri → dataUri ≠ "" →
     injectFont m font (css, w) = ((css +:+ fontFace dataUri) +:+ quillFontCss font, w))
  ∧ ((m !! name font = None ∧ Js.inherited (name font) = false) ∨ m !! name font = Some "" →
     injectFont m font (css, w)
     = (css +:+ quillFontCss font,
        emit (EConsoleWarn ("Font data URI not found for " +:+ name font +:+
                            ". Skipping @font-face injection.")) w))
  ∧ (m !! name font = None → Js.inherited (name font) = true →
     injectFont m font (css, w)
     = ((css +:+ fontFace (Js.toString (Js.objectPrototype (name font))))
          +:+ quillFontCss font, w))
  ∧ (∀ stem ext, url font = stem +:+ "." +:+ ext →
       Js.includes "." ext = false → Js.toLowerCase ext = "ttf" →
       fontFormatInCss (url font) = "truetype").
Proof.
  intros Hlocal nl' fontFace.
  destruct (isLocalFontFile_not_external font Hlocal) as [Hcss Hfile].
  assert (Hrun : injectFont m font (css, w)
                 = if Js.toBoolean (Js.get m (name font))
                   then ((css +:+ fontFace (Js.toString (Js.get m (name font))))
                           +:+ quillFontCss font, w)
                   else (css +:+ quillFontCss font, emit (dataUriWarning font) w)).
  { unfold injectFont. rewrite Hcss, Hfile, Hlocal. by destruct (Js.toBoolean _). }
  rewrite Hrun, toBoolean_get. split_and!.
  - intros dataUri Hm Hne. rewrite Hm, (get_own m _ dataUri Hm).
    destruct dataUri; [done|reflexivity].
  - intros [[Hm Hown] | Hm]; rewrite Hm; [by rewrite Hown|reflexivity].
  - intros Hm Hown. by rewrite Hm, Hown, (get_inherited m _ Hm).
  - intros stem ext -> Hno Hext. by apply fontFormatInCss_ttf.
Qed.

Lemma injectFont_local_witness :
  let font := {| name := "Custom"; quillValue := "custom-font";
                 url := "/fonts/custom.TTF"; cssFamily := "Custom" |} in
  let w := {| document := []; imports := ∅; log := [] |} in
  let nl := String "010"%char EmptyString in
  injectFont {[ "Custom" := "data:font/ttf;base64,AAEAAAA=" ]} font ("", w)
  = ((nl +:+
      "@font-face {" +:+ nl +:+
      "  font-family: 'Custom';" +:+ nl +:+
      "  src: url('data:font/ttf;base64,AAEAAAA=') format('truetype');" +:+ nl +:+
      "  font-weight: normal; /* Customize if your font has specific weights */" +:+ nl +:+
      "  font-style: normal;  /* Customize if your font has specific styles */" +:+ nl +:+
      "  font-display: swap; /* Add this for better font loading behavior */" +:+ nl +:+
      "}" +:+ nl) +:+ quillFontCss font, w).
Proof.
  intros font w nl'.
  destruct (injectFont_local {[ "Custom" := "data:font/ttf;base64,AAEAAAA=" ]} font "" w eq_refl)
    as (Hface & _ & _ & Hformat).
  rewrite (Hface "data:font/ttf;base64,AAEAAAA=" (lookup_singleton_eq _ _)) by discriminate.
  rewrite (Hformat "/fonts/custom" "TTF" eq_refl eq_refl eq_refl). reflexivity.
Defined.

(** C4 (the code at the failing input). A descriptor with a local URL is
    called constructor and the request for its file is answered 404, so
    the map handed to the injector is empty.  Reading the map under that
    name, the injector finds the function every object inherits there: it
    appends an [@font-face] block with the text of that function as src
    and logs no warning, where the map has no entry for the name. *)
Theorem injectFontStyles_inherited_name :
  let font := {| name := "constructor"; quillValue := "constructor-font";
                 url := "/fonts/constructor.ttf"; cssFamily := "Constructor" |} in
  let net := fun (i : nat) (fontUrl : string) =>
               FetchResponse false "Not Found" (BlobFail (Error "unused")) in
  let m : gmap string string := ∅ in
  let w := {| document := []; imports := ∅; log := [] |} in
  let nl := String "010"%char EmptyString in
  let fontFace :=
    nl +:+
    "@font-face {" +:+ nl +:+
    "  font-family: 'constructor';" +:+ nl +:+
    "  src: url('function Object() { [native code] }') format('truetype');" +:+ nl +:+
    "  font-weight: normal; /* Customize if your font has specific weights */" +:+ nl +:+
    "  font-style: normal;  /* Customize if your font has specific styles */" +:+ nl +:+
    "  font-display: swap; /* Add this for better font loading behavior */" +:+ nl +:+
    "}" +:+ nl in
  isLocalFontFile font = true
  ∧ m !! name font = None
  ∧ injectFont m font ("", w) = (fontFace +:+ quillFontCss font, w)
  ∧ log (injectFontStyles [font] m w) = []
  ∧ el_innerHTML <$> getElementById styleId (document (injectFontStyles [font] m w))
    = Some (fontFace +:+ quillFontCss font)
  ∧ (applyFonts net (fun _ => 0) [font] sample_world).1 = Fulfilled ()
  ∧ log (applyFonts net (fun _ => 0) [font] sample_world).2
    = [ EFetch "/fonts/constructor.ttf";
        EConsoleError "Error loading font from /fonts/constructor.ttf:"
          (Error "Failed to fetch font file from /fonts/constructor.ttf: Not Found");
        ESettled 0;
        EQuillRegister "formats/font" true
          {| attrName := "font"; keyName := "ql-font"; whitelist := ["constructor-font"] |};
        EInject m ]
  ∧ el_innerHTML <$> getElementById styleId
                       (document (applyFonts net (fun _ => 0) [font] sample_world).2)
    = Some (fontFace +:+ quillFontCss font).
Proof.
  intros font net m w nl' fontFace.
  split_and!; [reflexivity | apply lookup_empty | reflexivity | reflexivity | reflexivity
               | vm_compute; reflexivity | vm_compute; reflexivity | vm_compute; reflexivity].
Qed.

(** ** The document *)

Lemma index_of_id_app (i : string) (d d' : list Element) :
  index_of_id i (d ++ d')
  = match index_of_id i d with
    | Some k => Some k
    | None => (fun k => length d + k) <$> index_of_id i d'
    end.
Proof.
  induction d as [|e d IH]; simpl.
  - by destruct (index_of_id i d').
  - destruct (has_id i e); [done|]. rewrite IH.
    destruct (index_of_id i d); [done|]. by destruct (index_of_id i d').
Qed.

Lemma index_of_id_lookup (i : string) (d : list Element) (k : nat) :
  index_of_id i d = Some k → ∃ e, d !! k = Some e ∧ el_id e = i.
Proof.
  revert k. induction d as [|e d IH]; intros k; simpl; [done|].
  unfold has_id. case_bool_decide as Hid.
  - intros [= <-]. eauto.
  - destruct (index_of_id i d) as [k'|]; [|done]. intros [= <-]. by apply IH.
Qed.

Lemma index_of_id_filter (i : string) (d : list Element) :
  index_of_id i d = None ↔ List.filter (has_id i) d = [].
Proof.
  induction d as [|e d IH]; simpl; [done|].
  destruct (has_id i e); [done|].
  destruct (index_of_id i d); simpl.
  - split; [done|]. intros H. by apply IH in H.
  - split; [|done]. intros _. by apply IH.
Qed.

Lemma index_of_id_alter (i : string) (f : Element → Element) (k : nat) (d : list Element) :
  (∀ e, el_id (f e) = el_id e) →
  index_of_id i (alter f k d) = index_of_id i d.
Proof.
  intros Hf. revert k. induction d as [|e d IH]; intros [|k]; simpl; try done.
  - unfold has_id. by rewrite Hf.
  - specialize (IH k). unfold alter in IH. by rewrite IH.
Qed.

Lemma filter_alter (i : string) (f : Element → Element) (k : nat) (d : list Element) :
  (∀ e, el_id (f e) = el_id e) →
  (∀ e, d !! k = Some e → el_id e ≠ i) →
  List.filter (has_id i) (alter f k d) = List.filter (has_id i) d.
Proof.
  intros Hf. revert k. induction d as [|e d IH]; intros [|k] Hk; simpl; try done.
  - unfold has_id. rewrite Hf. case_bool_decide as Hid; [|done].
    by destruct (Hk e).
  - specialize (IH k). unfold alter in IH. rewrite IH; [done|].
    intros e' He'. by apply (Hk e').
Qed.

Lemma getElementById_None (i : string) (d : list Element) :
  getElementById i d = None ↔ index_of_id i d = None.
Proof.
  unfold getElementById. split; [|by intros ->].
  destruct (index_of_id i d) as [k|] eqn:Hk; [|done]. simpl.
  destruct (index_of_id_lookup i d k Hk) as (e & -> & _). done.
Qed.

Lemma linkId_not_styleId (font : FontInfo) : linkId font ≠ styleId.
Proof. discriminate. Qed.

Lemma linkId_inj (font1 font2 : FontInfo) :
  linkId font1 = linkId font2 → quillValue font1 = quillValue font2.
Proof. unfold linkId. intros H. by simplify_eq. Qed.

(** *** What the injector does to the world *)

Lemma injectFontStyles_eq (fonts : list FontInfo) (m : gmap string string) (w : World) :
  injectFontStyles fonts m w
  = {| document := alter (set_innerHTML (cssOfFonts m fonts)) (styleIndex (document w))
                         (foldl ensureLink (ensureStyle (document w)) fonts);
       imports := imports w;
       log := log w ++ concat (warningOf m <$> fonts) |}.
Proof.
  unfold injectFontStyles, ensureStyle, styleIndex.
  destruct (index_of_id styleId (document w)); rewrite injectFont_foldl; reflexivity.
Qed.

Lemma index_of_id_ensureStyle (d : list Element) :
  index_of_id styleId (ensureStyle d) = Some (styleIndex d).
Proof.
  unfold ensureStyle, styleIndex.
  destruct (index_of_id styleId d) as [k|] eqn:Hk; [done|].
  unfold appendChild. rewrite index_of_id_app, Hk. simpl. f_equal. lia.
Qed.

(** The loop only appends links, each made for a stylesheet descriptor. *)
Lemma foldl_ensureLink_app (fonts : list FontInfo) (d : list Element) :
  ∃ links, foldl ensureLink d fonts = d ++ links
    ∧ Forall (fun e => ∃ font, font ∈ fonts ∧ isExternalCssLink font = true ∧ e = fontLink font)
             links.
Proof.
  revert d. induction fonts as [|font fonts IH]; intros d; simpl.
  - exists []. by rewrite List.app_nil_r.
  - destruct (IH (ensureLink d font)) as (links & -> & Hlinks).
    assert (Hmono : Forall (fun e => ∃ font', font' ∈ font :: fonts
                                ∧ isExternalCssLink font' = true ∧ e = fontLink font') links).
    { eapply Forall_impl; [exact Hlinks|]. intros e (font' & ? & ? & ?).
      exists font'. split_and!; [by right|done..]. }
    unfold ensureLink. destruct (isExternalCssLink font) eqn:Hcss; [|eauto].
    destruct (getElementById (linkId font) d); [eauto|].
    exists (fontLink font :: links). unfold appendChild. rewrite <-List.app_assoc.
    split; [done|]. constructor; [|done].
    exists font. split_and!; [by left|done..].
Qed.

Lemma index_of_id_links (links : list Element) (fonts : list FontInfo) :
  Forall (fun e => ∃ font, font ∈ fonts ∧ isExternalCssLink font = true ∧ e = fontLink font)
         links →
  index_of_id styleId links = None.
Proof.
  induction 1 as [|e links (font & _ & _ & ->) _ IH]; simpl; [done|].
  by rewrite IH.
Qed.

Lemma index_of_id_style_foldl (fonts : list FontInfo) (d : list Element) :
  index_of_id styleId (foldl ensureLink (ensureStyle d) fonts) = Some (styleIndex d).
Proof.
  destruct (foldl_ensureLink_app fonts (ensureStyle d)) as (links & -> & _).
  by rewrite index_of_id_app, index_of_id_ensureStyle.
Qed.

Lemma el_id_set_innerHTML (css : string) (e : Element) : el_id (set_innerHTML css e) = el_id e.
Proof. done. Qed.

(** After the call the style element is found under its id and holds the
    text of the descriptors, whatever it held before. *)
Lemma injectFontStyles_style (fonts : list FontInfo) (m : gmap string string) (w : World) :
  ∃ style, getElementById styleId (document (injectFontStyles fonts m w)) = Some style
    ∧ el_id style = styleId
    ∧ el_innerHTML style = cssOfFonts m fonts.
Proof.
  rewrite injectFontStyles_eq. simpl. unfold getElementById.
  rewrite index_of_id_alter by apply el_id_set_innerHTML.
  rewrite index_of_id_style_foldl. simpl.
  destruct (index_of_id_lookup _ _ _ (index_of_id_style_foldl fonts (document w)))
    as (e & He & Hid).
  exists (set_innerHTML (cssOfFonts m fonts) e).
  rewrite list_lookup_alter_eq, He. done.
Qed.

Lemma fontFaceOf_system (m : gmap string string) (font : FontInfo) :
  url font = "" → fontFaceOf m font = "".
Proof.
  intros Hurl. unfold fontFaceOf, isExternalCssLink, isExternalFontFile, isLocalFontFile.
  by rewrite Hurl.
Qed.

Lemma cssOfFonts_lookup (m : gmap string string) (fonts : list FontInfo) (i : nat) (font : FontInfo) :
  fonts !! i = Some font →
  cssOfFonts m fonts
  = cssOfFonts m (take i fonts) +:+ fontCss m font +:+ cssOfFonts m (drop (S i) fonts).
Proof.
  intros Hi. rewrite <-(take_drop_middle fonts i font Hi) at 1.
  by rewrite cssOfFonts_app.
Qed.

(** C5. After the injector has run, the style element holds the text of
    the descriptors in their order, and the part of every descriptor of
    the set ends with its two scoping rules: the picker-label rule, keyed
    by data-value equal to its quillValue (for the label and for the
    item), with its name as content and its cssFamily as font-family, and
    the content-class rule of its quillValue with its cssFamily as
    font-family.  Every turn of the loop appends them, whatever the URL,
    the map and the document.  For a descriptor with an empty URL the turn
    appends nothing else, hence no [@font-face] block, and leaves the
    document and the log alone. *)
Theorem injectFontStyles_scoping_rules (fonts : list FontInfo) (m : gmap string string)
    (w : World) (i : nat) (font : FontInfo) :
  fonts !! i = Some font →
  let nl := String "010"%char EmptyString in
  let dq := String "034"%char EmptyString in
  let pickerLabelRule :=
    "/* Styles for font picker dropdown label */" +:+ nl +:+
    ".ql-picker.ql-font .ql-picker-label[data-value=" +:+ dq +:+ quillValue font +:+ dq
      +:+ "]::before," +:+ nl +:+
    ".ql-picker.ql-font .ql-picker-item[data-value=" +:+ dq +:+ quillValue font +:+ dq
      +:+ "]::before {" +:+ nl +:+
    "  content: " +:+ dq +:+ name font +:+ dq
      +:+ "; /* Displays the user-friendly name in the dropdown */" +:+ nl +:+
    "  font-family: " +:+ cssFamily font
      +:+ "; /* Applies the cssFamily (e.g., 'Virgin Money Loop, sans-serif') */" +:+ nl +:+
    "}" +:+ nl in
  let contentClassRule :=
    "/* Styles for actual content in the editor */" +:+ nl +:+
    ".ql-font-" +:+ quillValue font +:+ " {" +:+ nl +:+
    "  font-family: " +:+ cssFamily font
      +:+ "; /* Applies the cssFamily (e.g., 'Virgin Money Loop, sans-serif') */" +:+ nl +:+
    "}" +:+ nl in
  (∃ style, getElementById styleId (document (injectFontStyles fonts m w)) = Some style
     ∧ el_innerHTML style
       = cssOfFonts m (take i fonts)
         +:+ (fontFaceOf m font +:+ nl +:+ pickerLabelRule +:+ contentClassRule)
         +:+ cssOfFonts m (drop (S i) fonts))
  ∧ (∀ css w0, (injectFont m font (css, w0)).1
               = (css +:+ fontFaceOf m font) +:+ nl +:+ pickerLabelRule +:+ contentClassRule)
  ∧ (url font = "" →
     fontFaceOf m font = ""
     ∧ ∀ css w0, injectFont m font (css, w0)
                 = (css +:+ nl +:+ pickerLabelRule +:+ contentClassRule, w0)).
Proof.
  intros Hi nl' dq' pickerLabelRule contentClassRule.
  change (nl' +:+ pickerLabelRule +:+ contentClassRule) with (quillFontCss font).
  split_and!.
  - destruct (injectFontStyles_style fonts m w) as (style & Hstyle & _ & Hcss).
    exists style. split; [done|]. by rewrite Hcss, (cssOfFonts_lookup m fonts i font Hi).
  - intros css w0. rewrite injectFont_eq. unfold fontCss. simpl. by rewrite app_assoc.
  - intros Hurl. split; [by apply fontFaceOf_system|].
    intros css w0. unfold injectFont, isExternalCssLink, isExternalFontFile, isLocalFontFile.
    by rewrite Hurl.
Qed.

Lemma injectFontStyles_scoping_rules_witness :
  let arial := {| name := "Arial"; quillValue := "arial"; url := "";
                  cssFamily := "Arial, sans-serif" |} in
  let w := {| document := []; imports := ∅; log := [] |} in
  let nl := String "010"%char EmptyString in
  let dq := String "034"%char EmptyString in
  ∃ style, getElementById styleId (document (injectFontStyles [arial] ∅ w)) = Some style
    ∧ el_innerHTML style
      = nl +:+
        "/* Styles for font picker dropdown label */" +:+ nl +:+
        ".ql-picker.ql-font .ql-picker-label[data-value=" +:+ dq +:+ "arial" +:+ dq
          +:+ "]::before," +:+ nl +:+
        ".ql-picker.ql-font .ql-picker-item[data-value=" +:+ dq +:+ "arial" +:+ dq
          +:+ "]::before {" +:+ nl +:+
        "  content: " +:+ dq +:+ "Arial" +:+ dq
          +:+ "; /* Displays the user-friendly name in the dropdown */" +:+ nl +:+
        "  font-family: Arial, sans-serif"
          +:+ "; /* Applies the cssFamily (e.g., 'Virgin Money Loop, sans-serif') */" +:+ nl +:+
        "}" +:+ nl +:+
        "/* Styles for actual content in the editor */" +:+ nl +:+
        ".ql-font-arial {" +:+ nl +:+
        "  font-family: Arial, sans-serif"
          +:+ "; /* Applies the cssFamily (e.g., 'Virgin Money Loop, sans-serif') */" +:+ nl +:+
        "}" +:+ nl.
Proof.
  intros arial w nl' dq'.
  destruct (injectFontStyles_scoping_rules [arial] ∅ w 0 arial eq_refl)
    as ((style & Hstyle & Hcss) & _ & Hsystem).
  destruct (Hsystem eq_refl) as [Hface _].
  exists style. split; [exact Hstyle|].
  rewrite Hcss, Hface. reflexivity.
Defined.

(** ** Injecting again *)

Lemma index_of_id_app_Some (i : string) (d d' : list Element) (k : nat) :
  index_of_id i d = Some k → index_of_id i (d ++ d') = Some k.
Proof. intros Hk. by rewrite index_of_id_app, Hk. Qed.

Lemma ensureLink_present (d : list Element) (font : FontInfo) :
  is_Some (index_of_id (linkId font) d) → ensureLink d font = d.
Proof.
  intros [k Hk]. unfold ensureLink. destruct (isExternalCssLink font); [|done].
  destruct (getElementById (linkId font) d) eqn:Hget; [done|].
  apply getElementById_None in Hget. congruence.
Qed.

Lemma index_of_id_foldl_ensureLink (i : string) (fonts : list FontInfo) (d : list Element) :
  is_Some (index_of_id i d) → is_Some (index_of_id i (foldl ensureLink d fonts)).
Proof.
  intros [k Hk]. destruct (foldl_ensureLink_app fonts d) as (links & -> & _).
  exists k. by apply index_of_id_app_Some.
Qed.

Lemma index_of_id_ensureLink (d : list Element) (font : FontInfo) :
  isExternalCssLink font = true → is_Some (index_of_id (linkId font) (ensureLink d font)).
Proof.
  intros Hcss. unfold ensureLink. rewrite Hcss.
  destruct (getElementById (linkId font) d) eqn:Hget.
  - destruct (index_of_id (linkId font) d) eqn:Hk; [eauto|].
    apply getElementById_None in Hk. congruence.
  - apply getElementById_None in Hget. unfold appendChild.
    rewrite index_of_id_app, Hget. simpl.
    unfold has_id. rewrite bool_decide_eq_true_2 by done. simpl. eauto.
Qed.

(** Every stylesheet descriptor has its link in the document after the
    loop. *)
Lemma foldl_ensureLink_present (fonts : list FontInfo) (d : list Element) (font : FontInfo) :
  font ∈ fonts → isExternalCssLink font = true →
  is_Some (index_of_id (linkId font) (foldl ensureLink d fonts)).
Proof.
  intros Hin Hcss. revert d.
  induction fonts as [|font' fonts IH]; intros d; [by apply elem_of_nil in Hin|].
  simpl. apply elem_of_cons in Hin as [<- | Hin].
  - by apply index_of_id_foldl_ensureLink, index_of_id_ensureLink.
  - by apply IH.
Qed.

(** With all the links in place the loop changes nothing. *)
Lemma foldl_ensureLink_id (fonts : list FontInfo) (d : list Element) :
  (∀ font, font ∈ fonts → isExternalCssLink font = true →
           is_Some (index_of_id (linkId font) d)) →
  foldl ensureLink d fonts = d.
Proof.
  induction fonts as [|font fonts IH]; intros Hd; simpl; [done|].
  assert (Hfont : ensureLink d font = d).
  { unfold ensureLink. destruct (isExternalCssLink font) eqn:Hcss; [|done].
    fold (ensureLink d font). rewrite <-(ensureLink_present d font) at 2; [|].
    - unfold ensureLink. by rewrite Hcss.
    - apply Hd; [by left|done]. }
  rewrite Hfont. apply IH. intros font' Hin. apply Hd. by right.
Qed.

Lemma set_innerHTML_idemp (css : string) (e : Element) :
  set_innerHTML css (set_innerHTML css e) = set_innerHTML css e.
Proof. done. Qed.

Lemma alter_set_innerHTML_idemp (css : string) (k : nat) (d : list Element) :
  alter (set_innerHTML css) k (alter (set_innerHTML css) k d) = alter (set_innerHTML css) k d.
Proof.
  revert k. induction d as [|e d IH]; intros [|k]; simpl; try done.
  specialize (IH k). unfold alter in IH. by rewrite IH.
Qed.

(** A second call with the same descriptors and map leaves the document
    as the first call made it. *)
Lemma injectFontStyles_document_idemp (fonts : list FontInfo) (m : gmap string string) (w : World) :
  document (injectFontStyles fonts m (injectFontStyles fonts m w))
  = document (injectFontStyles fonts m w).
Proof.
  rewrite (injectFontStyles_eq fonts m (injectFontStyles fonts m w)).
  rewrite (injectFontStyles_eq fonts m w). simpl.
  set (D := foldl ensureLink (ensureStyle (document w)) fonts).
  set (k := styleIndex (document w)).
  set (D1 := alter (set_innerHTML (cssOfFonts m fonts)) k D).
  assert (Hstyle : index_of_id styleId D1 = Some k).
  { unfold D1. rewrite index_of_id_alter by apply el_id_set_innerHTML.
    apply index_of_id_style_foldl. }
  assert (HeS : ensureStyle D1 = D1) by (unfold ensureStyle; by rewrite Hstyle).
  assert (HsI : styleIndex D1 = k) by (unfold styleIndex; by rewrite Hstyle).
  rewrite HeS, HsI.
  rewrite foldl_ensureLink_id.
  - apply alter_set_innerHTML_idemp.
  - intros font Hin Hcss. unfold D1.
    rewrite index_of_id_alter by apply el_id_set_innerHTML.
    by apply foldl_ensureLink_present.
Qed.

(** Links made for other ids do not show under the id [i]. *)
Lemma filter_foldl_ensureLink_other (i : string) (fonts : list FontInfo) (d : list Element) :
  (∀ font, font ∈ fonts → linkId font ≠ i) →
  List.filter (has_id i) (foldl ensureLink d fonts) = List.filter (has_id i) d.
Proof.
  revert d. induction fonts as [|font fonts IH]; intros d Hne; simpl; [done|].
  rewrite IH by (intros font' Hin; apply Hne; by right).
  unfold ensureLink. destruct (isExternalCssLink font); [|done].
  destruct (getElementById (linkId font) d); [done|].
  unfold appendChild. rewrite List.filter_app. simpl.
  unfold has_id at 2. rewrite bool_decide_eq_false_2; [by rewrite List.app_nil_r|].
  apply Hne. by left.
Qed.

(** With distinct quillValues, a stylesheet descriptor whose id is free
    gets one link, its own. *)
Lemma filter_foldl_ensureLink (fonts : list FontInfo) (d : list Element) (font : FontInfo) :
  NoDup (quillValue <$> fonts) → font ∈ fonts → isExternalCssLink font = true →
  List.filter (has_id (linkId font)) d = [] →
  List.filter (has_id (linkId font)) (foldl ensureLink d fonts) = [fontLink font].
Proof.
  revert d. induction fonts as [|font' fonts IH]; intros d Hnd Hin Hcss Hfree;
    [by apply elem_of_nil in Hin|].
  simpl in Hnd. apply NoDup_cons in Hnd as [Hfresh Hnd].
  simpl. apply elem_of_cons in Hin as [<- | Hin].
  - rewrite filter_foldl_ensureLink_other.
    + unfold ensureLink. rewrite Hcss.
      destruct (getElementById (linkId font) d) eqn:Hget.
      * apply index_of_id_filter in Hfree. apply getElementById_None in Hfree. congruence.
      * unfold appendChild. rewrite List.filter_app, Hfree. simpl.
        unfold has_id. by rewrite bool_decide_eq_true_2.
    + intros font' Hin' Heq%linkId_inj. apply Hfresh.
      rewrite <-Heq. by apply list_elem_of_fmap_2.
  - apply IH; [done..|].
    assert (Hne : linkId font' ≠ linkId font).
    { intros Heq%linkId_inj. apply Hfresh. rewrite Heq. by apply list_elem_of_fmap_2. }
    unfold ensureLink. destruct (isExternalCssLink font'); [|done].
    destruct (getElementById (linkId font') d); [done|].
    unfold appendChild. rewrite List.filter_app, Hfree. simpl.
    unfold has_id. by rewrite bool_decide_eq_false_2.
Qed.

Lemma filter_ensureStyle (font : FontInfo) (d : list Element) :
  List.filter (has_id (linkId font)) (ensureStyle d) = List.filter (has_id (linkId font)) d.
Proof.
  unfold ensureStyle. destruct (index_of_id styleId d); [done|].
  unfold appendChild. rewrite List.filter_app. simpl. by rewrite List.app_nil_r.
Qed.

Lemma filter_injectFontStyles (fonts : list FontInfo) (m : gmap string string) (w : World)
    (font : FontInfo) :
  List.filter (has_id (linkId font)) (document (injectFontStyles fonts m w))
  = List.filter (has_id (linkId font)) (foldl ensureLink (ensureStyle (document w)) fonts).
Proof.
  rewrite injectFontStyles_eq. simpl.
  apply filter_alter; [apply el_id_set_innerHTML|].
  intros e He.
  destruct (index_of_id_lookup _ _ _ (index_of_id_style_foldl fonts (document w)))
    as (e' & He' & Hid).
  assert (e = e') as -> by congruence. rewrite Hid. intros Heq.
  by apply (linkId_not_styleId font).
Qed.

(** The injector leaves every element it finds, the style element apart,
    where it is and as it is. *)
Lemma injectFontStyles_keeps (fonts : list FontInfo) (m : gmap string string) (w : World)
    (k : nat) (e : Element) :
  document w !! k = Some e → el_id e ≠ styleId →
  document (injectFontStyles fonts m w) !! k = Some e.
Proof.
  intros Hk Hid. rewrite injectFontStyles_eq. simpl.
  destruct (foldl_ensureLink_app fonts (ensureStyle (document w))) as (links & HD & _).
  assert (Hpre : ∃ rest, foldl ensureLink (ensureStyle (document w)) fonts = document w ++ rest).
  { rewrite HD. unfold ensureStyle, appendChild.
    destruct (index_of_id styleId (document w)); [eauto|].
    rewrite <-List.app_assoc. eauto. }
  destruct Hpre as (rest & Hrest).
  assert (HDk : foldl ensureLink (ensureStyle (document w)) fonts !! k = Some e).
  { rewrite Hrest. by apply lookup_app_l_Some. }
  destruct (index_of_id_lookup _ _ _ (index_of_id_style_foldl fonts (document w)))
    as (e' & He' & Hid').
  rewrite list_lookup_alter_ne; [done|].
  intros <-. congruence.
Qed.

(** C6. Calling the injector again with the same descriptors and map: the
    style element holds the text of the descriptors once (the text is
    assigned, not added to), and the document is the one the first call
    left, so no link is duplicated, removed or made anew.  A call leaves
    every element it finds, the style element apart, in place and
    unchanged.  A stylesheet descriptor is served by a link element with
    rel stylesheet and its URL as href under the id made from its
    quillValue: with distinct quillValues and the id free before the first
    call, the document holds exactly that one element under the id after
    the first call and after the second. *)
Theorem injectFontStyles_again (fonts : list FontInfo) (m : gmap string string) (w : World) :
  let w1 := injectFontStyles fonts m w in
  let w2 := injectFontStyles fonts m w1 in
  (∃ style, getElementById styleId (document w2) = Some style
     ∧ el_innerHTML style = cssOfFonts m fonts)
  ∧ document w2 = document w1
  ∧ (∀ k e, document w !! k = Some e → el_id e ≠ styleId → document w1 !! k = Some e)
  ∧ (∀ font, font ∈ fonts → isExternalCssLink font = true →
       el_tag (fontLink font) = "link"
       ∧ el_id (fontLink font) = linkId font
       ∧ el_rel (fontLink font) = "stylesheet"
       ∧ el_href (fontLink font) = url font
       ∧ is_Some (getElementById (linkId font) (document w1))
       ∧ (NoDup (quillValue <$> fonts) →
          getElementById (linkId font) (document w) = None →
          List.filter (has_id (linkId font)) (document w1) = [fontLink font]
          ∧ List.filter (has_id (linkId font)) (document w2) = [fontLink font])).
Proof.
  intros w1 w2.
  assert (Hidem : document w2 = document w1) by apply injectFontStyles_document_idemp.
  split_and!.
  - destruct (injectFontStyles_style fonts m w1) as (style & Hstyle & _ & Hcss). eauto.
  - exact Hidem.
  - intros k e. apply injectFontStyles_keeps.
  - intros font Hin Hcss. split_and!; try reflexivity.
    + destruct (getElementById (linkId font) (document w1)) eqn:Hget; [eauto|].
      apply getElementById_None in Hget. unfold w1 in Hget.
      rewrite injectFontStyles_eq in Hget. simpl in Hget.
      rewrite index_of_id_alter in Hget by apply el_id_set_innerHTML.
      destruct (foldl_ensureLink_present fonts (ensureStyle (document w)) font Hin Hcss)
        as [k Hk]. congruence.
    + intros Hnd Hfree. rewrite Hidem.
      cut (List.filter (has_id (linkId font)) (document w1) = [fontLink font]); [done|].
      unfold w1.
      rewrite filter_injectFontStyles. apply filter_foldl_ensureLink; [done..|].
      rewrite filter_ensureStyle.
      apply (proj1 (index_of_id_filter _ _)), (proj1 (getElementById_None _ _)), Hfree.
Qed.

Lemma injectFontStyles_again_witness :
  let roboto := {| name := "Roboto"; quillValue := "roboto";
                   url := "https://fonts.googleapis.com/css?family=Roboto";
                   cssFamily := "Roboto, sans-serif" |} in
  let w := {| document := []; imports := ∅; log := [] |} in
  List.filter (has_id "font-link-roboto")
    (document (injectFontStyles [roboto] ∅ (injectFontStyles [roboto] ∅ w)))
  = [ {| el_tag := "link"; el_id := "font-link-roboto"; el_rel := "stylesheet";
         el_href := "https://fonts.googleapis.com/css?family=Roboto";
         el_innerHTML := "" |} ].
Proof.
  intros roboto w.
  destruct (injectFontStyles_again [roboto] ∅ w) as (_ & _ & _ & Hlinks).
  destruct (Hlinks roboto) as (_ & _ & _ & _ & _ & Hone);
    [by left | reflexivity |].
  destruct Hone as [_ Htwice]; [apply NoDup_singleton | reflexivity |].
  exact Htwice.
Defined.

(** ** Cleanup *)

Lemma cleanupFontStyles_eq (fonts : list FontInfo) (w : World) :
  cleanupFontStyles fonts w
  = set_document
      (foldl (fun d font => removeById (linkId font) d) (removeById styleId (document w)) fonts) w.
Proof.
  unfold cleanupFontStyles.
  generalize (removeById styleId (document w)). intros d.
  assert (Hgen : ∀ w', foldl (fun w font => set_document (removeById (linkId font) (document w)) w) w' fonts
                 = set_document (foldl (fun d font => removeById (linkId font) d) (document w') fonts) w').
  { induction fonts as [|font fonts IH]; intros w'; simpl; [by destruct w'|].
    rewrite IH. reflexivity. }
  rewrite Hgen. reflexivity.
Qed.

Lemma removeById_absent (i : string) (d : list Element) :
  index_of_id i d = None → removeById i d = d.
Proof. unfold removeById. by intros ->. Qed.

Lemma filter_none (i : string) (d : list Element) :
  List.filter (has_id i) d = [] → List.filter (fun e => negb (has_id i e)) d = d.
Proof.
  induction d as [|e d IH]; simpl; [done|].
  destruct (has_id i e); simpl; [done|]. intros H. by rewrite IH.
Qed.

(** Under a unique id, removing the element found removes all there is. *)
Lemma removeById_filter (i : string) (d : list Element) :
  length (List.filter (has_id i) d) ≤ 1 →
  removeById i d = List.filter (fun e => negb (has_id i e)) d.
Proof.
  unfold removeById. induction d as [|e d IH]; simpl; [done|].
  destruct (has_id i e) eqn:He; simpl.
  - intros Hlen. symmetry. apply filter_none.
    destruct (List.filter (has_id i) d); [done|simpl in Hlen; lia].
  - intros Hlen. specialize (IH Hlen).
    destruct (index_of_id i d); simpl; by rewrite <-IH.
Qed.

Lemma filter_filter_length (i : string) (p : Element → bool) (d : list Element) :
  length (List.filter (has_id i) (List.filter p d)) ≤ length (List.filter (has_id i) d).
Proof.
  induction d as [|e d IH]; simpl; [done|].
  destruct (p e), (has_id i e) eqn:He; simpl; rewrite ?He; simpl; lia.
Qed.

Lemma ids_unique_filter (p : Element → bool) (d : list Element) :
  ids_unique d → ids_unique (List.filter p d).
Proof.
  intros Hd i Hi. etrans; [apply filter_filter_length | by apply Hd].
Qed.

Lemma filter_filter (p q : Element → bool) (d : list Element) :
  List.filter p (List.filter q d) = List.filter (fun e => q e && p e) d.
Proof.
  induction d as [|e d IH]; simpl; [done|].
  destruct (q e); simpl; [|done]. destruct (p e); by rewrite IH.
Qed.

Lemma linkId_not_empty (font : FontInfo) : linkId font ≠ "".
Proof. discriminate. Qed.

Lemma foldl_removeById_filter (fonts : list FontInfo) (d : list Element) :
  ids_unique d →
  foldl (fun d font => removeById (linkId font) d) d fonts
  = List.filter (fun e => negb (existsb (fun font => has_id (linkId font) e) fonts)) d.
Proof.
  revert d. induction fonts as [|font fonts IH]; intros d Hd; simpl.
  - induction d as [|e d IHd]; simpl; [done|]. f_equal. apply IHd.
    intros i Hi. specialize (Hd i Hi). simpl in Hd. destruct (has_id i e); simpl in Hd; lia.
  - rewrite removeById_filter by apply Hd, linkId_not_empty.
    rewrite IH by by apply ids_unique_filter.
    rewrite filter_filter. apply List.filter_ext. intros e.
    by rewrite negb_orb.
Qed.

(** The cleanup of a document with unique ids removes the targeted
    elements and nothing else. *)
Lemma cleanupFontStyles_document (fonts : list FontInfo) (w : World) :
  ids_unique (document w) →
  document (cleanupFontStyles fonts w)
  = List.filter (fun e => negb (targeted fonts e)) (document w).
Proof.
  intros Hd. rewrite cleanupFontStyles_eq. simpl.
  rewrite removeById_filter by by apply Hd.
  rewrite foldl_removeById_filter by by apply ids_unique_filter.
  rewrite filter_filter. apply List.filter_ext. intros e.
  unfold targeted. by rewrite negb_orb.
Qed.

Lemma index_of_id_filter_out (i : string) (p : Element → bool) (d : list Element) :
  (∀ e, has_id i e = true → p e = false) →
  index_of_id i (List.filter p d) = None.
Proof.
  intros Hp. apply index_of_id_filter. rewrite filter_filter.
  induction d as [|e d IH]; simpl; [done|].
  destruct (has_id i e) eqn:He.
  - by rewrite (Hp e He).
  - by rewrite andb_false_r.
Qed.

(** With nothing to remove the cleanup does nothing. *)
Lemma cleanupFontStyles_absent (fonts : list FontInfo) (w : World) :
  getElementById styleId (document w) = None →
  (∀ font, font ∈ fonts → getElementById (linkId font) (document w) = None) →
  cleanupFontStyles fonts w = w.
Proof.
  intros Hstyle%getElementById_None Hlinks. rewrite cleanupFontStyles_eq.
  rewrite removeById_absent by done.
  assert (Hfold : foldl (fun d font => removeById (linkId font) d) (document w) fonts = document w).
  { induction fonts as [|font fonts IH]; simpl; [done|].
    rewrite removeById_absent.
    - apply IH. intros font' Hin. apply Hlinks. by right.
    - apply getElementById_None, Hlinks. by left. }
  rewrite Hfold. by destruct w.
Qed.

(** C7. On a document in which an id names at most one element, the
    cleanup removes the style element, if there is one, and every element
    whose id is made from the quillValue of a descriptor, and nothing
    else: afterwards none of these ids is found, and the registry and the
    log are as before.  The cleanup always returns; called again right
    after, or on any world in which none of these elements is present, it
    changes nothing. *)
Theorem cleanupFontStyles_removes (fonts : list FontInfo) (w : World) :
  ids_unique (document w) →
  let w' := cleanupFontStyles fonts w in
  document w' = List.filter (fun e => negb (targeted fonts e)) (document w)
  ∧ getElementById styleId (document w') = None
  ∧ (∀ font, font ∈ fonts → getElementById (linkId font) (document w') = None)
  ∧ imports w' = imports w
  ∧ log w' = log w
  ∧ cleanupFontStyles fonts w' = w'
  ∧ (∀ v, getElementById styleId (document v) = None →
          (∀ font, font ∈ fonts → getElementById (linkId font) (document v) = None) →
          cleanupFontStyles fonts v = v).
Proof.
  intros Hd w'.
  assert (Hdoc : document w' = List.filter (fun e => negb (targeted fonts e)) (document w))
    by by apply cleanupFontStyles_document.
  assert (Hstyle : getElementById styleId (document w') = None).
  { apply getElementById_None. rewrite Hdoc. apply index_of_id_filter_out.
    intros e He. unfold targeted. by rewrite He. }
  assert (Hlinks : ∀ font, font ∈ fonts → getElementById (linkId font) (document w') = None).
  { intros font Hin. apply getElementById_None. rewrite Hdoc. apply index_of_id_filter_out.
    intros e He. unfold targeted. apply negb_false_iff, orb_true_iff. right.
    apply existsb_exists. exists font. split; [by apply list_elem_of_In|done]. }
  split_and!; try done.
  - unfold w'. by rewrite cleanupFontStyles_eq.
  - unfold w'. by rewrite cleanupFontStyles_eq.
  - by apply cleanupFontStyles_absent.
  - intros v. apply cleanupFontStyles_absent.
Qed.

(** *** The injector keeps ids unique *)

Lemma ids_unique_nil : ids_unique [].
Proof. intros i _. simpl. lia. Qed.

Lemma ids_unique_app_fresh (d : list Element) (e : Element) :
  ids_unique d → index_of_id (el_id e) d = None → ids_unique (appendChild e d).
Proof.
  intros Hd Hfresh i Hi. unfold appendChild. rewrite List.filter_app, length_app. simpl.
  unfold has_id at 2. case_bool_decide as He; simpl.
  - subst i. apply index_of_id_filter in Hfresh. rewrite Hfresh. simpl. lia.
  - specialize (Hd i Hi). lia.
Qed.

Lemma filter_alter_length (i : string) (f : Element → Element) (k : nat) (d : list Element) :
  (∀ e, el_id (f e) = el_id e) →
  length (List.filter (has_id i) (alter f k d)) = length (List.filter (has_id i) d).
Proof.
  intros Hf. revert k. induction d as [|e d IH]; intros [|k]; simpl; try done.
  - unfold has_id. rewrite Hf. by case_bool_decide.
  - specialize (IH k). unfold alter in IH. destruct (has_id i e); simpl; by rewrite IH.
Qed.

Lemma ids_unique_ensureLink (d : list Element) (font : FontInfo) :
  ids_unique d → ids_unique (ensureLink d font).
Proof.
  intros Hd. unfold ensureLink. destruct (isExternalCssLink font); [|done].
  destruct (getElementById (linkId font) d) eqn:Hget; [done|].
  apply ids_unique_app_fresh; [done|]. by apply getElementById_None.
Qed.

Lemma ids_unique_ensureStyle (d : list Element) : ids_unique d → ids_unique (ensureStyle d).
Proof.
  intros Hd. unfold ensureStyle. destruct (index_of_id styleId d) eqn:Hk; [done|].
  apply ids_unique_app_fresh; [exact Hd | exact Hk].
Qed.

Lemma injectFontStyles_ids_unique (fonts : list FontInfo) (m : gmap string string) (w : World) :
  ids_unique (document w) → ids_unique (document (injectFontStyles fonts m w)).
Proof.
  intros Hd. rewrite injectFontStyles_eq. simpl. intros i Hi.
  rewrite filter_alter_length by apply el_id_set_innerHTML.
  revert i Hi. change (ids_unique (foldl ensureLink (ensureStyle (document w)) fonts)).
  apply ids_unique_ensureStyle in Hd. revert Hd. generalize (ensureStyle (document w)).
  induction fonts as [|font fonts IH]; intros d Hd; simpl; [done|].
  by apply IH, ids_unique_ensureLink.
Qed.

Lemma cleanupFontStyles_removes_witness :
  let roboto := {| name := "Roboto"; quillValue := "roboto";
                   url := "https://fonts.googleapis.com/css?family=Roboto";
                   cssFamily := "Roboto, sans-serif" |} in
  let w := injectFontStyles [roboto] ∅ {| document := []; imports := ∅; log := [] |} in
  length (document w) = 2
  ∧ document (cleanupFontStyles [roboto] w) = []
  ∧ cleanupFontStyles [roboto] (cleanupFontStyles [roboto] w) = cleanupFontStyles [roboto] w.
Proof.
  intros roboto w.
  destruct (cleanupFontStyles_removes [roboto] w) as (Hdoc & _ & _ & _ & _ & Hagain & _).
  { apply injectFontStyles_ids_unique, ids_unique_nil. }
  split_and!; [reflexivity | rewrite Hdoc; reflexivity | exact Hagain].
Defined.

(** ** The orchestrator *)

(** Every pending request is answered, once. *)
Lemma completion_order_perm {A : Type} (sched : nat → nat) (n : nat) (pending : list A) :
  n = length pending → completion_order sched n pending ≡ₚ pending.
Proof.
  revert pending. induction n as [|n IH]; intros pending Hn; simpl.
  - by destruct pending.
  - assert (Hk : sched (S n) mod length pending < length pending).
    { apply Nat.mod_upper_bound. lia. }
    destruct (lookup_lt_is_Some_2 pending _ Hk) as [t Ht]. rewrite Ht.
    etrans; [|symmetry; exact (delete_Permutation pending _ t Ht)].
    constructor. apply IH. rewrite length_delete by eauto. lia.
Qed.

Lemma elem_of_localFonts (fonts : list FontInfo) (i : nat) (font : FontInfo) :
  (i, font) ∈ localFonts fonts ↔ fonts !! i = Some font ∧ isLocalFontFile font = true.
Proof.
  unfold localFonts. rewrite list_elem_of_In, List.filter_In, <-list_elem_of_In.
  rewrite elem_of_lookup_imap. simpl. split.
  - intros [(j & font' & [= -> ->] & Hj) Hlocal]. done.
  - intros [Hi Hlocal]. eauto.
Qed.

Lemma settleFontDataUri_world (fontUrl : string) (o : FetchOutcome) (w : World) :
  ∃ evs, (settleFontDataUri fontUrl o w).2
         = {| document := document w; imports := imports w; log := log w ++ evs |}
    ∧ Forall is_loading evs.
Proof.
  destruct o as [e|[] st [e|[s|e|]]]; simpl;
    try (eexists [_]; split; [reflexivity|by repeat constructor]);
    exists []; by rewrite emit_nil.
Qed.

Lemma settleFontDataUri_result (fontUrl : string) (o : FetchOutcome) (w : World) :
  (settleFontDataUri fontUrl o w).1
  = match loaded o with
    | Some result => Fulfilled (Some result)
    | None =>
        if decode_failed o
        then Rejected (match o with
                       | FetchResponse _ _ (BlobOk (ReadFail error)) => error
                       | _ => Error "FileReader did not return a string result."
                       end)
        else Fulfilled None
    end.
Proof. by destruct o as [e|[] st [e|[s|e|]]]. Qed.

(** What [settleFonts] leaves: the events it adds are those of the
    loader and one settlement per callback; when all callbacks fulfil, all
    of them have settled; the map gains entries from requests that loaded
    only; and it rejects only on a failure of the reader. *)
Lemma settleFonts_spec (net : nat → string → FetchOutcome) (order : list (nat * FontInfo))
    (m : gmap string string) (w : World) :
  ∃ r m' evs,
    settleFonts net order m w
    = (r, m', {| document := document w; imports := imports w; log := log w ++ evs |})
    ∧ Forall is_loading evs
    ∧ (r = Fulfilled () → ∀ i font, (i, font) ∈ order → ESettled i ∈ evs)
    ∧ (∀ n u, m' !! n = Some u →
         m !! n = Some u
         ∨ ∃ i font, (i, font) ∈ order ∧ name font = n ∧ loaded (net i (url font)) = Some u)
    ∧ ((∀ i font, (i, font) ∈ order → decode_failed (net i (url font)) = false) →
       r = Fulfilled ()).
Proof.
  revert m w. induction order as [|[i font] order IH]; intros m w.
  - exists (Fulfilled ()), m, []. simpl. rewrite emit_nil.
    split_and!; [done|constructor| |by left|done].
    intros _ i font Hin. by apply elem_of_nil in Hin.
  - cbn [settleFonts].
    destruct (settleFontDataUri (url font) (net i (url font)) w) as [r1 w1] eqn:Hrun.
    destruct (settleFontDataUri_world (url font) (net i (url font)) w) as (evs1 & Hw1 & Hevs1).
    pose proof (settleFontDataUri_result (url font) (net i (url font)) w) as Hr1.
    rewrite Hrun in Hw1, Hr1. simpl in Hw1, Hr1. subst w1.
    destruct r1 as [dataUri|e].
    + set (m1 := if Js.truthy_value dataUri
                 then Js.set (name font) (Js.interpolate dataUri) m else m).
      destruct (IH m1 (emit (ESettled i)
                  {| document := document w; imports := imports w; log := log w ++ evs1 |}))
        as (r & m' & evs & -> & Hevs & Hsettled & Hprov & Hok).
      exists r, m', (evs1 ++ ESettled i :: evs). simpl.
      rewrite <-!List.app_assoc. simpl. split_and!; [done| | | |].
      * apply Forall_app. split; [done|]. by constructor.
      * intros Hr j font' [[= -> ->]|Hin]%elem_of_cons.
        -- apply elem_of_app. right. by left.
        -- apply elem_of_app. right. right. by apply (Hsettled Hr j font').
      * intros n u Hn. destruct (Hprov n u Hn) as [Hm1|(j & font' & Hin & Hname & Hload)].
        -- unfold m1 in Hm1. destruct (Js.truthy_value dataUri) eqn:Ht; [|by left].
           apply lookup_set_Some in Hm1 as [[Heq Hu]|Hm]; [|by left].
           right. exists i, font. split_and!; [by left|done|].
           destruct (loaded (net i (url font))) as [result|];
             [|destruct (decode_failed _); simplify_eq; done].
           by simplify_eq.
        -- right. exists j, font'. split_and!; [by right|done..].
      * intros Hno. apply Hok. intros j font' Hin. apply Hno. by right.
    + exists (Rejected e), m, (evs1 ++ [ESettled i]). unfold emit. simpl.
      rewrite <-List.app_assoc. split_and!; [done| |done|by left|].
      * apply Forall_app. split; [done|]. by repeat constructor.
      * intros Hno. specialize (Hno i font (ltac:(by left))).
        rewrite Hno in Hr1. by destruct (loaded _).
Qed.

Lemma foldl_emit_fetch (pending : list (nat * FontInfo)) (w : World) :
  foldl (fun w t => emit (EFetch (url t.2)) w) w pending
  = {| document := document w; imports := imports w;
       log := log w ++ ((fun t => EFetch (url t.2)) <$> pending) |}.
Proof.
  revert w. induction pending as [|t pending IH]; intros w; simpl.
  - by rewrite emit_nil.
  - rewrite IH. simpl. by rewrite <-List.app_assoc.
Qed.

Lemma registerQuillFonts_eq (fonts : list FontInfo) (w : World) (FontAttributor : Attributor) :
  Quill.import "formats/font" w = Some FontAttributor →
  let a := set_whitelist (quillValue <$> fonts) FontAttributor in
  registerQuillFonts fonts w
  = (Normal (),
     {| document := document w;
        imports := <["formats/" +:+ attrName FontAttributor := a]>
                     (<["formats/font" := a]> (imports w));
        log := log w ++ [EQuillRegister ("formats/" +:+ attrName FontAttributor) true a] |}).
Proof.
  intros Himp. unfold registerQuillFonts. rewrite Himp. simpl.
  unfold Quill.register. by rewrite andb_false_r.
Qed.

(** A list has at most one decomposition around its only injection. *)
Lemma inject_split_unique (A C pre post : list Event) (m0 m : gmap string string) :
  (∀ m', EInject m' ∉ A) → (∀ m', EInject m' ∉ C) →
  A ++ EInject m0 :: C = pre ++ EInject m :: post →
  pre = A ∧ m = m0.
Proof.
  intros HA HC. revert pre. induction A as [|a A IH]; intros [|x pre]; simpl; intros Heq.
  - by simplify_eq.
  - injection Heq as <- ->. destruct (HC m). apply elem_of_app. right. by left.
  - injection Heq as -> _. destruct (HA m). by left.
  - injection Heq as -> Heq.
    destruct (IH (fun m' Hin => HA m' (proj2 (elem_of_cons _ _ _) (or_intror Hin))) pre Heq)
      as [-> ->]. done.
Qed.

Lemma is_loading_not_inject (evs : list Event) (m : gmap string string) :
  Forall is_loading evs → EInject m ∉ evs.
Proof.
  intros Hevs Hin. rewrite Forall_forall in Hevs. exact (Hevs _ Hin).
Qed.

Lemma is_warning_not_inject (evs : list Event) (m : gmap string string) :
  Forall is_warning evs → EInject m ∉ evs.
Proof.
  intros Hevs Hin. rewrite Forall_forall in Hevs. exact (Hevs _ Hin).
Qed.

Lemma warningOf_is_warning (m : gmap string string) (fonts : list FontInfo) :
  Forall is_warning (concat (warningOf m <$> fonts)).
Proof.
  induction fonts as [|font fonts IH]; simpl; [constructor|].
  apply Forall_app. split; [|done].
  unfold warningOf. destruct (_ && _); by repeat constructor.
Qed.

Lemma fetches_is_loading (pending : list (nat * FontInfo)) :
  Forall is_loading ((fun t => EFetch (url t.2)) <$> pending).
Proof. induction pending; simpl; by constructor. Qed.

(** C3. In every run of [applyFonts], whatever the network answers and in
    whatever order: if the style injector is entered at all, then before
    that point the callback of every descriptor with a local URL has
    settled and the registrar has made its call to the registry with the
    whitelist of the descriptors; the injector is entered once, and only
    its warnings follow.  The map it is given has no entry under a name
    all of whose descriptors were skipped (no local URL) or not loaded
    (the request failed).  And when no answer makes the reader fail, a
    request that fails does not stop the run: with the font class
    registered, [applyFonts] fulfils and the document is the one the
    injector makes from the descriptors and that map. *)
Theorem applyFonts_order (net : nat → string → FetchOutcome) (sched : nat → nat)
    (fonts : list FontInfo) (w : World) :
  ∃ r w' evs,
    applyFonts net sched fonts w = (r, w')
    ∧ log w' = log w ++ evs
    ∧ (∀ pre m post, evs = pre ++ EInject m :: post →
         (∀ i font, fonts !! i = Some font → isLocalFontFile font = true → ESettled i ∈ pre)
         ∧ (∃ path a, EQuillRegister path true a ∈ pre ∧ whitelist a = quillValue <$> fonts)
         ∧ (∀ m', EInject m' ∉ pre)
         ∧ Forall is_warning post
         ∧ (∀ n, (∀ i font, fonts !! i = Some font → name font = n →
                    isLocalFontFile font = false ∨ loaded (net i (url font)) = None) →
                 m !! n = None))
    ∧ ((∀ i font, fonts !! i = Some font → isLocalFontFile font = true →
          decode_failed (net i (url font)) = false) →
       is_Some (Quill.import "formats/font" w) →
       r = Fulfilled ()
       ∧ ∃ pre m post, evs = pre ++ EInject m :: post
           ∧ document w' = document (injectFontStyles fonts m w)).
Proof.
  unfold applyFonts. rewrite foldl_emit_fetch.
  set (pending := localFonts fonts).
  set (fetches := (fun t => EFetch (url t.2)) <$> pending).
  set (order := completion_order sched (length pending) pending).
  assert (Horder : ∀ i font, (i, font) ∈ order ↔ fonts !! i = Some font ∧ isLocalFontFile font = true).
  { intros i font. unfold order. rewrite (completion_order_perm sched _ pending eq_refl).
    apply elem_of_localFonts. }
  destruct (settleFonts_spec net order ∅
              {| document := document w; imports := imports w; log := log w ++ fetches |})
    as (r & m & evs & -> & Hevs & Hsettled & Hprov & Hok).
  simpl.
  assert (Hloading : Forall is_loading (fetches ++ evs)).
  { apply Forall_app. split; [apply fetches_is_loading|done]. }
  destruct r as [[]|e].
  - destruct (Quill.import "formats/font" w) as [FontAttributor|] eqn:Himp.
    + rewrite (registerQuillFonts_eq fonts _ FontAttributor) by exact Himp. simpl.
      set (a := set_whitelist (quillValue <$> fonts) FontAttributor).
      set (reg := EQuillRegister ("formats/" +:+ attrName FontAttributor) true a).
      set (A := fetches ++ evs ++ [reg]).
      set (C := concat (warningOf m <$> fonts)).
      eexists _, _, (A ++ EInject m :: C). split; [reflexivity|].
      assert (HA : ∀ m', EInject m' ∉ A).
      { intros m'. unfold A. rewrite List.app_assoc. intros [Hin|Hin]%elem_of_app.
        - by apply (is_loading_not_inject _ m' Hloading).
        - apply list_elem_of_singleton in Hin. discriminate Hin. }
      assert (HC : Forall is_warning C) by apply warningOf_is_warning.
      split_and!.
      * rewrite injectFontStyles_eq. simpl. unfold A, C.
        by rewrite <-!List.app_assoc.
      * intros pre m0 post Hsplit.
        destruct (inject_split_unique A C pre post m m0 HA
                    (fun m' => is_warning_not_inject C m' HC) Hsplit) as [-> ->].
        apply app_inv_head in Hsplit. injection Hsplit as <-.
        split_and!; [| |exact HA|exact HC|].
        -- intros i font Hi Hlocal. unfold A. apply elem_of_app. right.
           apply elem_of_app. left. apply (Hsettled eq_refl i font), Horder. done.
        -- exists ("formats/" +:+ attrName FontAttributor), a. split; [|done].
           unfold A. rewrite !elem_of_app. right. right. by left.
        -- intros n Hn. destruct (m !! n) as [u|] eqn:Hm; [|done].
           destruct (Hprov n u Hm) as [Hempty|(i & font & Hin & Hname & Hload)].
           ++ by rewrite lookup_empty in Hempty.
           ++ apply Horder in Hin as [Hi Hlocal].
              destruct (Hn i font Hi Hname); congruence.
      * intros _ _. split; [done|]. exists A, m, C. split; [done|].
        by rewrite !injectFontStyles_eq.
    + destruct (registerQuillFonts_missing fonts
                  {| document := document w; imports := imports w;
                     log := (log w ++ fetches) ++ evs |} Himp) as (e & ->).
      eexists _, _, (fetches ++ evs). simpl. split; [reflexivity|].
      split_and!.
      * by rewrite List.app_assoc.
      * intros pre m0 post Hsplit. exfalso.
        apply (is_loading_not_inject _ m0 Hloading). rewrite Hsplit.
        apply elem_of_app. right. by left.
      * intros _ [? [=]].
  - eexists _, _, (fetches ++ evs). simpl. split; [reflexivity|].
    split_and!.
    + by rewrite List.app_assoc.
    + intros pre m0 post Hsplit. exfalso.
      apply (is_loading_not_inject _ m0 Hloading). rewrite Hsplit.
      apply elem_of_app. right. by left.
    + intros Hno _. exfalso.
      assert (Rejected e = Fulfilled ()) as [=].
      apply Hok. intros i font [Hi Hlocal]%Horder. by apply Hno.
Qed.

Lemma applyFonts_order_witness :
  ∃ w', applyFonts sample_net (fun _ => 1) sample_fonts sample_world = (Fulfilled (), w').
Proof.
  destruct (applyFonts_order sample_net (fun _ => 1) sample_fonts sample_world)
    as (r & w' & evs & Hrun & _ & _ & Hok).
  destruct Hok as [-> _].
  - intros i font _ _. by destruct i as [|[|i]].
  - eexists. apply lookup_singleton_eq.
  - exists w'. exact Hrun.
Defined.

(** The run of the sample: the failed request is logged, the loaded font
    reaches the map, the registrar and the injector follow. *)
Example applyFonts_sample :
  let '(r, w') := applyFonts sample_net (fun _ => 1) sample_fonts sample_world in
  r = Fulfilled ()
  ∧ log w'
    = [ EFetch "/fonts/custom.woff2"; EFetch "/fonts/missing.ttf";
        EConsoleError "Error loading font from /fonts/missing.ttf:"
          (Error "Failed to fetch font file from /fonts/missing.ttf: Not Found");
        ESettled 2; ESettled 1;
        EQuillRegister "formats/font" true
          {| attrName := "font"; keyName := "ql-font";
             whitelist := ["arial"; "custom-font"; "missing"] |};
        EInject {[ "Custom" := "data:font/woff2;base64,d09GMgABAAAA" ]};
        EConsoleWarn "Font data URI not found for Missing. Skipping @font-face injection." ].
Proof. vm_compute. split; reflexivity. Qed.

(** The failure of C1 reaches the caller of [applyFonts]: with a reader
    that fails on the custom font, the orchestrator rejects and neither
    the registrar nor the injector runs. *)
Example applyFonts_reader_error_rejects :
  let net := fun (i : nat) => unreadable_net (Error "NotReadableError") in
  let '(r, w') := applyFonts net (fun _ => 0) sample_fonts sample_world in
  r = Rejected (Error "NotReadableError")
  ∧ document w' = []
  ∧ log w' = [ EFetch "/fonts/custom.woff2"; EFetch "/fonts/missing.ttf";
               EConsoleError "FileReader error:" (Error "NotReadableError");
               ESettled 1 ].
Proof. vm_compute. split_and!; reflexivity. Qed.

(** The two tables differ on eot only. *)
Lemma variant_mime_agrees (url : string) :
  getFontMimeTypeFromUrl url ≠ "application/vnd.ms-fontobject" →
  Variant.getFontMimeTypeFromUrl url = getFontMimeTypeFromUrl url.
Proof.
  unfold Variant.getFontMimeTypeFromUrl, getFontMimeTypeFromUrl.
  repeat case_bool_decide; done.
Qed.

Example variant_mime_eot :
  Variant.getFontMimeTypeFromUrl "/fonts/legacy.eot" = "application/octet-stream"
  ∧ getFontMimeTypeFromUrl "/fonts/legacy.eot" = "application/vnd.ms-fontobject".
Proof. split; reflexivity. Qed.

(** The variant sends a request for a remote font file, which
    [fontHelper.ts] skips. *)
Example variant_fetches_remote_file :
  let net := fun _ : string => FetchFail (Error "TypeError: Failed to fetch") in
  let w := {| document := []; imports := ∅; log := [] |} in
  log (Variant.getFontDataUri net "https://cdn.example.org/a.ttf" w).2
  = [ EFetch "https://cdn.example.org/a.ttf";
      EConsoleError "Error loading font from https://cdn.example.org/a.ttf:"
                    (Error "TypeError: Failed to fetch") ]
  ∧ getFontDataUri net "https://cdn.example.org/a.ttf" w = (Fulfilled None, w).
Proof. split; reflexivity. Qed.

(** * Further properties of the helper *)

(** ** The data-URI loader, outcome by outcome *)

(** X1. For a local URL whose file is fetched and read, the loader
    resolves to the very string the reader produced; the request is the
    only thing it logs. *)
Theorem getFontDataUri_loaded (net : string → FetchOutcome) (fontUrl : string) (w : World)
    (result : string) :
  isLocalUrl fontUrl = true →
  loaded (net fontUrl) = Some result →
  getFontDataUri net fontUrl w = (Fulfilled (Some result), emit (EFetch fontUrl) w).
Proof.
  intros [Ht Hh%negb_true_iff]%andb_true_iff Hload.
  rewrite getFontDataUri_local by done. by apply settleFontDataUri_loaded.
Qed.

Lemma getFontDataUri_loaded_witness :
  let net := fun _ : string =>
    FetchResponse true "OK" (BlobOk (ReadLoad "data:font/woff2;base64,d09GMgABAAAA")) in
  let w := {| document := []; imports := ∅; log := [] |} in
  getFontDataUri net "/fonts/custom.woff2" w
  = (Fulfilled (Some "data:font/woff2;base64,d09GMgABAAAA"),
     {| document := []; imports := ∅; log := [EFetch "/fonts/custom.woff2"] |}).
Proof.
  intros net w.
  exact (getFontDataUri_loaded net "/fonts/custom.woff2" w _ eq_refl eq_refl).
Defined.

(** X2. For a local URL served with a 2xx status whose body is handed to
    the reader: when the reader fails, the loader logs the reader's error
    and rejects with it; when the reader ends without a string and without
    error, the loader rejects with its own error and logs nothing more.  In
    neither case does the message of the catch block appear. *)
Theorem getFontDataUri_reader_rejects (net : string → FetchOutcome) (fontUrl : string)
    (w : World) (statusText : string) (r : ReadOutcome) :
  isLocalUrl fontUrl = true →
  net fontUrl = FetchResponse true statusText (BlobOk r) →
  (∀ error, r = ReadFail error →
     getFontDataUri net fontUrl w
     = (Rejected error,
        emit (EConsoleError "FileReader error:" error) (emit (EFetch fontUrl) w)))
  ∧ (r = ReadAbort →
     getFontDataUri net fontUrl w
     = (Rejected (Error "FileReader did not return a string result."),
        emit (EFetch fontUrl) w)).
Proof.
  intros [Ht Hh%negb_true_iff]%andb_true_iff Hnet.
  rewrite getFontDataUri_local by done. rewrite Hnet.
  split; [intros error ->|intros ->]; reflexivity.
Qed.

Lemma getFontDataUri_reader_rejects_witness :
  let net := fun _ : string => FetchResponse true "OK" (BlobOk ReadAbort) in
  let w := {| document := []; imports := ∅; log := [] |} in
  getFontDataUri net "fonts/custom.otf" w
  = (Rejected (Error "FileReader did not return a string result."),
     {| document := []; imports := ∅; log := [EFetch "fonts/custom.otf"] |}).
Proof.
  intros net w.
  destruct (getFontDataUri_reader_rejects net "fonts/custom.otf" w "OK" ReadAbort
              eq_refl eq_refl) as [_ Habort].
  exact (Habort eq_refl).
Defined.

(** X3. Whatever the URL and whatever the environment answers, the loader
    leaves the document and the registry alone and sends at most one
    request: exactly one, for the URL it was given, when the URL is a
    local path, and none otherwise.  It never asks twice. *)
Theorem getFontDataUri_frame (net : string → FetchOutcome) (fontUrl : string) (w : World) :
  let w' := (getFontDataUri net fontUrl w).2 in
  document w' = document w
  ∧ imports w' = imports w
  ∧ ∃ evs, log w' = log w ++ evs
      ∧ List.filter is_fetch evs = (if isLocalUrl fontUrl then [EFetch fontUrl] else [])
      ∧ length evs ≤ 2.
Proof.
  unfold getFontDataUri, isLocalUrl.
  destruct (Js.startsWith "http" fontUrl) eqn:Hh; simpl.
  { rewrite andb_false_r. split_and!; try done. exists [].
    split_and!; [by rewrite List.app_nil_r | done | simpl; lia]. }
  destruct (Js.truthy fontUrl) eqn:Ht; simpl.
  2:{ split_and!; try done. exists [].
      split_and!; [by rewrite List.app_nil_r | done | simpl; lia]. }
  destruct (net fontUrl) as [e|[] st [e|[s|e|]]]; simpl; split_and!; try done;
    first [ eexists [_; _]; rewrite <-List.app_assoc; split_and!;
            [reflexivity|reflexivity|simpl; lia]
          | eexists [_]; split_and!; [reflexivity|reflexivity|simpl; lia] ].
Qed.

(** ** Letter case in URLs *)

Lemma lower_ascii_idemp (c : ascii) : Js.lower_ascii (Js.lower_ascii c) = Js.lower_ascii c.
Proof. destruct c as [[] [] [] [] [] [] [] []]; reflexivity. Qed.

Lemma lower_ascii_dot (c : ascii) : Ascii.eqb (Js.lower_ascii c) "." = Ascii.eqb c ".".
Proof. destruct c as [[] [] [] [] [] [] [] []]; reflexivity. Qed.

Lemma toLowerCase_idemp (s : string) : Js.toLowerCase (Js.toLowerCase s) = Js.toLowerCase s.
Proof. induction s as [|c s IH]; simpl; [done|]. by rewrite lower_ascii_idemp, IH. Qed.

Lemma split_toLowerCase (s : string) :
  Js.split "." (Js.toLowerCase s) = Js.toLowerCase <$> Js.split "." s.
Proof.
  induction s as [|c s IH]; [done|].
  cbn [Js.toLowerCase Js.split]. rewrite lower_ascii_dot, IH.
  destruct (Ascii.eqb c "."); [done|].
  pose proof (split_not_nil "."%char s) as Hne.
  destruct (Js.split "." s); done.
Qed.

(** X4. The extension is matched without regard to letter case: a URL
    and the same URL in lower case get the same MIME type and the same CSS
    font format. *)
Theorem getFontMimeTypeFromUrl_case (url : string) :
  getFontMimeTypeFromUrl (Js.toLowerCase url) = getFontMimeTypeFromUrl url
  ∧ fontFormatInCss (Js.toLowerCase url) = fontFormatInCss url.
Proof.
  assert (Hmime : getFontMimeTypeFromUrl (Js.toLowerCase url) = getFontMimeTypeFromUrl url).
  { unfold getFontMimeTypeFromUrl. rewrite split_toLowerCase, fmap_last.
    destruct (last (Js.split "." url)) as [ext|]; simpl; [|done].
    by rewrite toLowerCase_idemp. }
  split; [exact Hmime|]. unfold fontFormatInCss. by rewrite Hmime.
Qed.

(** ** One descriptor, one way of serving it *)

(** X5. In one turn of the loop a descriptor is served in at most one way:
    a turn that adds an element to the document appends no [@font-face]
    block and logs nothing; a turn that appends an [@font-face] block
    leaves the document and the log alone; a turn that logs appends no
    [@font-face] block and leaves the document alone.  The registry is
    never touched. *)
Theorem injectFont_one_way (m : gmap string string) (font : FontInfo) (css : string) (w : World) :
  let css' := (injectFont m font (css, w)).1 in
  let w' := (injectFont m font (css, w)).2 in
  imports w' = imports w
  ∧ (document w' ≠ document w → css' = css +:+ quillFontCss font ∧ log w' = log w)
  ∧ (css' ≠ css +:+ quillFontCss font → document w' = document w ∧ log w' = log w)
  ∧ (log w' ≠ log w → css' = css +:+ quillFontCss font ∧ document w' = document w).
Proof.
  unfold injectFont.
  destruct (isExternalCssLink font).
  { destruct (getElementById (linkId font) (document w)); simpl; split_and!; done. }
  destruct (isExternalFontFile font); [simpl; split_and!; done|].
  destruct (isLocalFontFile font); [|simpl; split_and!; done].
  destruct (Js.toBoolean (Js.get m (name font))); simpl; split_and!; done.
Qed.

(** ** The style element is a singleton *)

Lemma filter_style_links (links : list Element) (fonts : list FontInfo) :
  Forall (fun e => ∃ font, font ∈ fonts ∧ isExternalCssLink font = true ∧ e = fontLink font)
         links →
  List.filter (has_id styleId) links = [].
Proof. intros Hlinks. by apply index_of_id_filter, (index_of_id_links links fonts). Qed.

Lemma injectFontStyles_style_count (fonts : list FontInfo) (m : gmap string string) (w : World) :
  length (List.filter (has_id styleId) (document (injectFontStyles fonts m w)))
  = Nat.max 1 (length (List.filter (has_id styleId) (document w))).
Proof.
  rewrite injectFontStyles_eq. simpl.
  rewrite filter_alter_length by apply el_id_set_innerHTML.
  destruct (foldl_ensureLink_app fonts (ensureStyle (document w))) as (links & -> & Hlinks).
  rewrite List.filter_app, (filter_style_links links fonts Hlinks), List.app_nil_r.
  unfold ensureStyle. destruct (index_of_id styleId (document w)) as [k|] eqn:Hk.
  - destruct (List.filter (has_id styleId) (document w)) eqn:Hf; simpl; [|lia].
    apply index_of_id_filter in Hf. congruence.
  - apply index_of_id_filter in Hk. unfold appendChild.
    rewrite List.filter_app, Hk. reflexivity.
Qed.

(** X6. After the injector has run the document holds one element under
    the id of the style element when it held none or one before, and as
    many as before otherwise: the injector creates the style element only
    when it is missing and never a second one. *)
Theorem injectFontStyles_singleton (fonts : list FontInfo) (m : gmap string string) (w : World) :
  length (List.filter (has_id styleId) (document (injectFontStyles fonts m w)))
  = Nat.max 1 (length (List.filter (has_id styleId) (document w))).
Proof. apply injectFontStyles_style_count. Qed.

(** ** What the injector logs *)

Lemma concat_warningOf (m : gmap string string) (fonts : list FontInfo) :
  concat (warningOf m <$> fonts)
  = dataUriWarning <$>
      List.filter (fun font => isLocalFontFile font
                               && negb (Js.toBoolean (Js.get m (name font))))
                  fonts.
Proof.
  induction fonts as [|font fonts IH]; csimpl; [done|]. rewrite IH.
  unfold warningOf. destruct (isLocalFontFile font) eqn:Hlocal.
  - destruct (isLocalFontFile_not_external font Hlocal) as [-> ->]. simpl.
    by destruct (Js.toBoolean (Js.get m (name font))).
  - by rewrite !andb_false_r.
Qed.

(** X7. The injector never touches the registry, and what it logs is one
    warning, naming the descriptor, for each descriptor with a local URL
    whose name reads as nothing or as the empty string in the map: the
    map holds the empty string under the name, or it holds nothing there
    and the name is not one that [Object.prototype] provides.  The
    warnings come in the order of the descriptors, and nothing else is
    logged.  So a local descriptor called constructor or toString gets no
    warning when the map holds nothing under its name. *)
Theorem injectFontStyles_warnings (fonts : list FontInfo) (m : gmap string string) (w : World) :
  imports (injectFontStyles fonts m w) = imports w
  ∧ log (injectFontStyles fonts m w)
    = log w ++
      ((fun font => EConsoleWarn ("Font data URI not found for " +:+ name font +:+
                                  ". Skipping @font-face injection.")) <$>
         List.filter (fun font => isLocalFontFile font
                                  && match m !! name font with
                                     | Some dataUri => negb (Js.truthy dataUri)
                                     | None => negb (Js.inherited (name font))
                                     end) fonts).
Proof.
  rewrite injectFontStyles_eq. simpl. rewrite concat_warningOf. split; [done|].
  do 2 f_equal. apply List.filter_ext. intros font. rewrite toBoolean_get.
  by destruct (m !! name font).
Qed.

(** ** Injection undone by cleanup *)

Lemma filter_all (p : Element → bool) (d : list Element) :
  (∀ e, e ∈ d → p e = true) → List.filter p d = d.
Proof.
  induction d as [|e d IH]; intros Hd; simpl; [done|].
  rewrite (Hd e) by by left. f_equal. apply IH. intros e' He'. apply Hd. by right.
Qed.

Lemma filter_nothing (p : Element → bool) (d : list Element) :
  (∀ e, e ∈ d → p e = false) → List.filter p d = [].
Proof.
  induction d as [|e d IH]; intros Hd; simpl; [done|].
  rewrite (Hd e) by by left. apply IH. intros e' He'. apply Hd. by right.
Qed.

Lemma filter_alter_out (p : Element → bool) (f : Element → Element) (k : nat) (d : list Element) :
  (∀ e, p (f e) = p e) →
  (∀ e, d !! k = Some e → p e = false) →
  List.filter p (alter f k d) = List.filter p d.
Proof.
  intros Hf. revert k. induction d as [|e d IH]; intros [|k] Hk; simpl; try done.
  - by rewrite Hf, (Hk e).
  - specialize (IH k). unfold alter in IH. rewrite IH; [done|].
    intros e' He'. by apply (Hk e').
Qed.

Lemma foldl_removeById_filter_on (fonts : list FontInfo) (d : list Element) :
  (∀ font, font ∈ fonts → length (List.filter (has_id (linkId font)) d) ≤ 1) →
  foldl (fun d font => removeById (linkId font) d) d fonts
  = List.filter (fun e => negb (existsb (fun font => has_id (linkId font) e) fonts)) d.
Proof.
  revert d. induction fonts as [|font fonts IH]; intros d Hd; simpl.
  - symmetry. by apply filter_all.
  - rewrite removeById_filter by (apply Hd; by left).
    rewrite IH.
    + rewrite filter_filter. apply List.filter_ext. intros e. by rewrite negb_orb.
    + intros font' Hin. etrans; [apply filter_filter_length|]. apply Hd. by right.
Qed.

(** Where the style id and the link ids of the descriptors each name at
    most one element, the cleanup removes the targeted elements and
    nothing else. *)
Lemma cleanupFontStyles_document_on (fonts : list FontInfo) (w : World) :
  length (List.filter (has_id styleId) (document w)) ≤ 1 →
  (∀ font, font ∈ fonts → length (List.filter (has_id (linkId font)) (document w)) ≤ 1) →
  document (cleanupFontStyles fonts w)
  = List.filter (fun e => negb (targeted fonts e)) (document w).
Proof.
  intros Hstyle Hlinks. rewrite cleanupFontStyles_eq. simpl.
  rewrite removeById_filter by done.
  rewrite foldl_removeById_filter_on.
  - rewrite filter_filter. apply List.filter_ext. intros e.
    unfold targeted. by rewrite negb_orb.
  - intros font Hin. etrans; [apply filter_filter_length|]. by apply Hlinks.
Qed.

(** The loop never makes a second element under an id. *)
Lemma filter_foldl_ensureLink_length (i : string) (fonts : list FontInfo) (d : list Element) :
  length (List.filter (has_id i) (foldl ensureLink d fonts))
  ≤ Nat.max 1 (length (List.filter (has_id i) d)).
Proof.
  revert d. induction fonts as [|font fonts IH]; intros d; simpl; [lia|].
  etrans; [apply IH|].
  unfold ensureLink. destruct (isExternalCssLink font); [|lia].
  destruct (getElementById (linkId font) d) eqn:Hget; [lia|].
  unfold appendChild. rewrite List.filter_app, length_app. simpl.
  unfold has_id at 2. case_bool_decide as Hid; simpl; [|lia].
  simpl in Hid. subst i.
  apply getElementById_None, index_of_id_filter in Hget. rewrite Hget. simpl. lia.
Qed.

Lemma targeted_set_innerHTML (fonts : list FontInfo) (css : string) (e : Element) :
  targeted fonts (set_innerHTML css e) = targeted fonts e.
Proof. done. Qed.

Lemma targeted_fontLink (fonts : list FontInfo) (font : FontInfo) :
  font ∈ fonts → targeted fonts (fontLink font) = true.
Proof.
  intros Hin. unfold targeted. apply orb_true_iff. right.
  apply existsb_exists. exists font. split; [by apply list_elem_of_In|].
  unfold has_id. by apply bool_decide_eq_true_2.
Qed.

(** X8. Injection followed by cleanup with the same descriptors gives the
    document back: when no element of the document carries the id of the
    style element or the link id of a descriptor, the document after the
    two calls is the one before them, whatever the map; the registry is
    untouched. *)
Theorem cleanup_after_inject (fonts : list FontInfo) (m : gmap string string) (w : World) :
  (∀ e, e ∈ document w → targeted fonts e = false) →
  document (cleanupFontStyles fonts (injectFontStyles fonts m w)) = document w
  ∧ imports (cleanupFontStyles fonts (injectFontStyles fonts m w)) = imports w.
Proof.
  intros Hfree.
  assert (Hnone : ∀ i, (∀ e, has_id i e = true → targeted fonts e = true) →
                       List.filter (has_id i) (document w) = []).
  { intros i Hi. apply filter_nothing. intros e He.
    destruct (has_id i e) eqn:Hid; [|done]. specialize (Hfree e He).
    by rewrite (Hi e Hid) in Hfree. }
  assert (Hstyle0 : List.filter (has_id styleId) (document w) = []).
  { apply Hnone. intros e He. unfold targeted. by rewrite He. }
  split; [|by rewrite cleanupFontStyles_eq, injectFontStyles_eq].
  rewrite cleanupFontStyles_document_on.
  - rewrite injectFontStyles_eq. simpl.
    destruct (index_of_id_lookup _ _ _ (index_of_id_style_foldl fonts (document w)))
      as (style & Hstyle & Hid).
    rewrite filter_alter_out.
    + destruct (foldl_ensureLink_app fonts (ensureStyle (document w)))
        as (links & -> & Hlinks).
      unfold ensureStyle.
      rewrite (proj2 (index_of_id_filter styleId (document w)) Hstyle0).
      unfold appendChild. rewrite !List.filter_app.
      rewrite (filter_all _ (document w)) by (intros e He; by rewrite (Hfree e He)).
      rewrite (filter_nothing _ [_]) by (by intros e ->%list_elem_of_singleton).
      rewrite (filter_nothing _ links); [by rewrite !List.app_nil_r|].
      intros e He. rewrite Forall_forall in Hlinks.
      destruct (Hlinks e He) as (font & Hin & _ & ->).
      by rewrite targeted_fontLink.
    + intros e. by rewrite targeted_set_innerHTML.
    + intros e He. assert (e = style) as -> by congruence.
      unfold targeted, has_id. by rewrite Hid, bool_decide_eq_true_2.
  - rewrite injectFontStyles_style_count, Hstyle0. simpl. lia.
  - intros font Hin. rewrite filter_injectFontStyles.
    etrans; [apply filter_foldl_ensureLink_length|].
    rewrite filter_ensureStyle, Hnone; [simpl; lia|].
    intros e He. unfold targeted. apply orb_true_iff. right.
    apply existsb_exists. exists font. split; [by apply list_elem_of_In|done].
Qed.

Lemma cleanup_after_inject_witness :
  let roboto := {| name := "Roboto"; quillValue := "roboto";
                   url := "https://fonts.googleapis.com/css?family=Roboto";
                   cssFamily := "Roboto, sans-serif" |} in
  let custom := {| name := "Custom"; quillValue := "custom-font";
                   url := "/fonts/custom.woff2"; cssFamily := "Custom" |} in
  let title := {| el_tag := "title"; el_id := ""; el_rel := ""; el_href := "";
                  el_innerHTML := "Editor" |} in
  let w := {| document := [title]; imports := ∅; log := [] |} in
  length (document (injectFontStyles [roboto; custom] ∅ w)) = 3
  ∧ document (cleanupFontStyles [roboto; custom] (injectFontStyles [roboto; custom] ∅ w))
    = [title].
Proof.
  intros roboto custom title w. split; [reflexivity|].
  apply (cleanup_after_inject [roboto; custom] ∅ w).
  intros e He. apply list_elem_of_singleton in He. by subst e.
Defined.

(** ** The registrar, called again *)

(** X9. The registration made last is the one that counts: after the
    registrar has run for one set of descriptors and then for another, the
    registry is the one a single run for the second set would have left,
    and the whitelist found under formats/font is that of the second
    set. *)
Theorem registerQuillFonts_last_wins (fonts1 fonts2 : list FontInfo) (w : World)
    (FontAttributor : Attributor) :
  Quill.import "formats/font" w = Some FontAttributor →
  ∃ w1 w2 w2',
    registerQuillFonts fonts1 w = (Normal (), w1)
    ∧ registerQuillFonts fonts2 w1 = (Normal (), w2)
    ∧ registerQuillFonts fonts2 w = (Normal (), w2')
    ∧ imports w2 = imports w2'
    ∧ whitelist <$> Quill.import "formats/font" w2 = Some (quillValue <$> fonts2).
Proof.
  intros Himp.
  set (p := "formats/" +:+ attrName FontAttributor).
  set (a1 := set_whitelist (quillValue <$> fonts1) FontAttributor).
  set (a2 := set_whitelist (quillValue <$> fonts2) FontAttributor).
  pose proof (registerQuillFonts_eq fonts1 w FontAttributor Himp) as H1.
  pose proof (registerQuillFonts_eq fonts2 w FontAttributor Himp) as H2'.
  simpl in H1, H2'. fold p a1 in H1. fold p a2 in H2'.
  eexists _, _, _. split; [exact H1|].
  assert (Himp1 : Quill.import "formats/font"
            {| document := document w;
               imports := <[p:=a1]> (<["formats/font":=a1]> (imports w));
               log := log w ++ [EQuillRegister p true a1] |} = Some a1).
  { unfold Quill.import. simpl. rewrite lookup_insert. case_decide; [done|].
    by rewrite lookup_insert_eq. }
  pose proof (registerQuillFonts_eq fonts2 _ a1 Himp1) as H2.
  simpl in H2. change (set_whitelist (quillValue <$> fonts2) a1) with a2 in H2.
  change ("formats/" +:+ attrName FontAttributor) with p in H2.
  split; [exact H2|]. split; [exact H2'|]. simpl. split.
  - apply map_eq. intros k. rewrite !lookup_insert. by repeat case_decide.
  - unfold Quill.import. simpl. rewrite lookup_insert. case_decide; [done|].
    by rewrite lookup_insert_eq.
Qed.

Lemma registerQuillFonts_last_wins_witness :
  let arial := {| name := "Arial"; quillValue := "arial"; url := "";
                  cssFamily := "Arial, sans-serif" |} in
  let times := {| name := "Times New Roman"; quillValue := "times-new-roman"; url := "";
                  cssFamily := "Times, serif" |} in
  ∃ w1 w2,
    registerQuillFonts [arial; times] sample_world = (Normal (), w1)
    ∧ registerQuillFonts [times] w1 = (Normal (), w2)
    ∧ whitelist <$> Quill.import "formats/font" w2 = Some ["times-new-roman"].
Proof.
  intros arial times.
  destruct (registerQuillFonts_last_wins [arial; times] [times] sample_world
              {| attrName := "font"; keyName := "ql-font";
                 whitelist := ["serif"; "monospace"] |})
    as (w1 & w2 & _ & H1 & H2 & _ & _ & Hwl); [apply lookup_singleton_eq|].
  exists w1, w2. split_and!; [exact H1 | exact H2 | exact Hwl].
Defined.

(** ** The orchestrator, run by run *)

Lemma applyFonts_unfold (net : nat → string → FetchOutcome) (sched : nat → nat)
    (fonts : list FontInfo) (w : World) (r : Settled unit) (m : gmap string string)
    (ws : World) :
  settleFonts net (completion_order sched (length (localFonts fonts)) (localFonts fonts)) ∅
    (foldl (fun w t => emit (EFetch (url t.2)) w) w (localFonts fonts)) = (r, m, ws) →
  applyFonts net sched fonts w
  = match r with
    | Rejected e => (Rejected e, ws)
    | Fulfilled _ =>
        match registerQuillFonts fonts ws with
        | (Throw e, w1) => (Rejected e, w1)
        | (Normal _, w1) => (Fulfilled (), injectFontStyles fonts m (emit (EInject m) w1))
        end
    end.
Proof.
  intros Hrun. unfold applyFonts. rewrite Hrun. destruct r; [|done].
  by destruct (registerQuillFonts fonts ws) as [[] ?].
Qed.

Lemma filter_snd_imap (f : nat → nat) (p : FontInfo → bool) (fonts : list FontInfo) :
  (List.filter (fun t : nat * FontInfo => p t.2) (imap (fun i font => (f i, font)) fonts)).*2
  = List.filter p fonts.
Proof.
  revert f. induction fonts as [|font fonts IH]; intros f; [done|].
  cbn [imap List.filter]. simpl.
  specialize (IH (f ∘ S)).
  destruct (p font); csimpl; [f_equal|]; exact IH.
Qed.

(** The callbacks that send a request are those of the descriptors with a
    local URL, in the order of the list. *)
Lemma localFonts_snd (fonts : list FontInfo) :
  (localFonts fonts).*2 = List.filter isLocalFontFile fonts.
Proof. apply (filter_snd_imap id). Qed.

Lemma settleFontDataUri_no_fetch (fontUrl : string) (o : FetchOutcome) (w : World) :
  ∃ evs, log (settleFontDataUri fontUrl o w).2 = log w ++ evs
    ∧ List.filter is_fetch evs = [].
Proof.
  destruct o as [e|[] st [e|[s|e|]]]; simpl;
    try (by eexists [_]); exists []; by rewrite List.app_nil_r.
Qed.

(** More of what [settleFonts] leaves: no request is sent while the
    callbacks resume; the map only grows; when all callbacks fulfil, every
    callback whose file was loaded to a non-empty string has an entry under
    its name, unless the name is [__proto__]; a callback whose reader fails
    makes the whole reject; and no entry is ever made under [__proto__]. *)
Lemma settleFonts_more (net : nat → string → FetchOutcome) (order : list (nat * FontInfo))
    (m : gmap string string) (w : World) (r : Settled unit) (m' : gmap string string)
    (w' : World) :
  settleFonts net order m w = (r, m', w') →
  (∃ evs, log w' = log w ++ evs ∧ List.filter is_fetch evs = [])
  ∧ (∀ n, is_Some (m !! n) → is_Some (m' !! n))
  ∧ (r = Fulfilled () →
     ∀ i font u, (i, font) ∈ order → loaded (net i (url font)) = Some u → u ≠ "" →
                 name font ≠ "__proto__" →
                 is_Some (m' !! name font))
  ∧ ((∃ i font, (i, font) ∈ order ∧ decode_failed (net i (url font)) = true) →
     ∃ e, r = Rejected e)
  ∧ (m !! "__proto__" = None → m' !! "__proto__" = None).
Proof.
  revert m w. induction order as [|[i font] order IH]; intros m w Hrun.
  - simpl in Hrun. injection Hrun as <- <- <-. split_and!.
    + exists []. by rewrite List.app_nil_r.
    + done.
    + intros _ i font u Hin. by apply elem_of_nil in Hin.
    + intros (i & font & Hin & _). by apply elem_of_nil in Hin.
    + done.
  - cbn [settleFonts] in Hrun.
    destruct (settleFontDataUri_no_fetch (url font) (net i (url font)) w) as (evs1 & Hlog1 & Hf1).
    pose proof (settleFontDataUri_result (url font) (net i (url font)) w) as Hr1.
    destruct (settleFontDataUri (url font) (net i (url font)) w) as [r1 w1].
    simpl in Hlog1, Hr1. destruct r1 as [dataUri|e].
    + apply IH in Hrun as ((evs & Hlog & Hf) & Hmono & Hpresent & Hreject & Hproto).
      assert (Hstep : ∀ n, is_Some (m !! n) →
                is_Some ((if Js.truthy_value dataUri
                          then Js.set (name font) (Js.interpolate dataUri) m else m) !! n)).
      { intros n Hn. destruct (Js.truthy_value dataUri); [|done].
        unfold Js.set. destruct (_ && _); [done|].
        rewrite lookup_insert. by case_decide. }
      split_and!.
      * exists (evs1 ++ ESettled i :: evs). simpl in Hlog.
        rewrite Hlog, Hlog1, <-!List.app_assoc. split; [done|].
        rewrite List.filter_app, Hf1. simpl. exact Hf.
      * intros n Hn. by apply Hmono, Hstep.
      * intros Hr j font' u [[= -> ->]|Hin]%elem_of_cons Hload Hu Hname.
        -- apply Hmono. rewrite Hload in Hr1. injection Hr1 as ->.
           destruct u as [|c u]; [done|]. simpl. rewrite lookup_set_eq by done. eauto.
        -- by apply (Hpresent Hr j font' u).
      * intros (j & font' & [[= -> ->]|Hin]%elem_of_cons & Hfail).
        -- by destruct (net i (url font)) as [?|[] ? [?|[?|?|]]].
        -- apply Hreject. eauto.
      * intros Hm. apply Hproto. destruct (Js.truthy_value dataUri); [|done].
        destruct (decide (name font = "__proto__")) as [->|Hne].
        -- by rewrite set_proto.
        -- by rewrite lookup_set_ne.
    + injection Hrun as <- <- <-. split_and!.
      * exists (evs1 ++ [ESettled i]). simpl. rewrite Hlog1, <-List.app_assoc.
        split; [done|]. rewrite List.filter_app, Hf1. reflexivity.
      * done.
      * done.
      * eauto.
      * done.
Qed.

(** The run of [applyFonts] up to the end of the loading. *)
Lemma applyFonts_loading (net : nat → string → FetchOutcome) (sched : nat → nat)
    (fonts : list FontInfo) (w : World) :
  let order := completion_order sched (length (localFonts fonts)) (localFonts fonts) in
  let fetches := (fun font => EFetch (url font)) <$> List.filter isLocalFontFile fonts in
  ∃ r m evs,
    settleFonts net order ∅ (foldl (fun w t => emit (EFetch (url t.2)) w) w (localFonts fonts))
    = (r, m, {| document := document w; imports := imports w;
                log := (log w ++ fetches) ++ evs |})
    ∧ Forall is_loading evs
    ∧ List.filter is_fetch evs = []
    ∧ (∀ i font, (i, font) ∈ order ↔ fonts !! i = Some font ∧ isLocalFontFile font = true)
    ∧ (r = Fulfilled () → ∀ i font, (i, font) ∈ order → ESettled i ∈ evs)
    ∧ (∀ n u, m !! n = Some u →
         ∃ i font, (i, font) ∈ order ∧ name font = n ∧ loaded (net i (url font)) = Some u)
    ∧ ((∀ i font, (i, font) ∈ order → decode_failed (net i (url font)) = false) →
       r = Fulfilled ()).
Proof.
  intros order fetches. rewrite foldl_emit_fetch.
  assert (Hfetches : (fun t : nat * FontInfo => EFetch (url t.2)) <$> localFonts fonts = fetches).
  { unfold fetches. rewrite <-localFonts_snd, <-list_fmap_compose. done. }
  rewrite Hfetches.
  destruct (settleFonts_spec net order ∅
              {| document := document w; imports := imports w; log := log w ++ fetches |})
    as (r & m & evs & Hrun & Hevs & Hsettled & Hprov & Hok).
  exists r, m, evs. simpl in Hrun.
  split_and!; [exact Hrun | exact Hevs | | | exact Hsettled | | exact Hok].
  - destruct (settleFonts_more _ _ _ _ _ _ _ Hrun) as ((evs' & Hlog & Hf) & _).
    simpl in Hlog. apply app_inv_head in Hlog. by subst evs'.
  - intros i font. unfold order.
    rewrite (completion_order_perm sched _ (localFonts fonts) eq_refl).
    apply elem_of_localFonts.
  - intros n u Hn. destruct (Hprov n u Hn) as [Hempty|Hfrom]; [|exact Hfrom].
    by rewrite lookup_empty in Hempty.
Qed.

(** The three ways a run of [applyFonts] ends: the loading rejects; the
    loading fulfils and the registrar throws; or all three steps are
    done. *)
Lemma applyFonts_cases (net : nat → string → FetchOutcome) (sched : nat → nat)
    (fonts : list FontInfo) (w : World) :
  let order := completion_order sched (length (localFonts fonts)) (localFonts fonts) in
  let fetches := (fun font => EFetch (url font)) <$> List.filter isLocalFontFile fonts in
  ∃ r m evs,
    settleFonts net order ∅ (foldl (fun w t => emit (EFetch (url t.2)) w) w (localFonts fonts))
    = (r, m, {| document := document w; imports := imports w;
                log := (log w ++ fetches) ++ evs |})
    ∧ Forall is_loading evs
    ∧ List.filter is_fetch evs = []
    ∧ (∀ i font, (i, font) ∈ order ↔ fonts !! i = Some font ∧ isLocalFontFile font = true)
    ∧ (r = Fulfilled () → ∀ i font, (i, font) ∈ order → ESettled i ∈ evs)
    ∧ (∀ n u, m !! n = Some u →
         ∃ i font, (i, font) ∈ order ∧ name font = n ∧ loaded (net i (url font)) = Some u)
    ∧ ((∀ i font, (i, font) ∈ order → decode_failed (net i (url font)) = false) →
       r = Fulfilled ())
    ∧ applyFonts net sched fonts w
      = match r with
        | Rejected e =>
            (Rejected e, {| document := document w; imports := imports w;
                            log := (log w ++ fetches) ++ evs |})
        | Fulfilled _ =>
            match Quill.import "formats/font" w with
            | None =>
                (Rejected (Error "TypeError: Cannot set properties of undefined (setting 'whitelist')"),
                 {| document := document w; imports := imports w;
                    log := (log w ++ fetches) ++ evs |})
            | Some FontAttributor =>
                let a := set_whitelist (quillValue <$> fonts) FontAttributor in
                let path := "formats/" +:+ attrName FontAttributor in
                (Fulfilled (),
                 {| document := document (injectFontStyles fonts m w);
                    imports := <[path := a]> (<["formats/font" := a]> (imports w));
                    log := ((log w ++ fetches) ++ evs)
                           ++ [EQuillRegister path true a; EInject m]
                           ++ concat (warningOf m <$> fonts) |})
            end
        end.
Proof.
  intros order fetches.
  destruct (applyFonts_loading net sched fonts w)
    as (r & m & evs & Hrun & Hevs & Hnf & Horder & Hsettled & Hprov & Hok).
  exists r, m, evs.
  split_and!; [exact Hrun | exact Hevs | exact Hnf | exact Horder | exact Hsettled
               | exact Hprov | exact Hok |].
  rewrite (applyFonts_unfold net sched fonts w r m _ Hrun).
  destruct r as [[]|e]; [|done].
  destruct (Quill.import "formats/font" w) as [FontAttributor|] eqn:Himp.
  - rewrite (registerQuillFonts_eq fonts _ FontAttributor) by exact Himp.
    rewrite !injectFontStyles_eq. simpl. by rewrite <-!List.app_assoc.
  - unfold registerQuillFonts. unfold Quill.import in *. simpl. by rewrite Himp.
Qed.

Lemma filter_fetch_warnings (m : gmap string string) (fonts : list FontInfo) :
  List.filter is_fetch (concat (warningOf m <$> fonts)) = [].
Proof.
  pose proof (warningOf_is_warning m fonts) as Hw.
  induction Hw as [|e evs He _ IH]; simpl; [done|]. by destruct e.
Qed.

(** X10. In every run of [applyFonts] the requests are sent first, one
    for each descriptor with a local URL, in the order of the descriptors
    and whatever the outcome of the run; no request is sent for a
    descriptor with an empty or http URL, and none is sent later. *)
Theorem applyFonts_requests (net : nat → string → FetchOutcome) (sched : nat → nat)
    (fonts : list FontInfo) (w : World) :
  ∃ evs,
    log (applyFonts net sched fonts w).2
    = log w ++ ((fun font => EFetch (url font)) <$> List.filter isLocalFontFile fonts) ++ evs
    ∧ List.filter is_fetch evs = [].
Proof.
  destruct (applyFonts_cases net sched fonts w)
    as (r & m & evs & _ & _ & Hnf & _ & _ & _ & _ & ->).
  destruct r as [[]|e]; [destruct (Quill.import "formats/font" w)|]; simpl.
  - eexists (evs ++ [_; _] ++ _). rewrite <-!List.app_assoc. split; [reflexivity|].
    rewrite !List.filter_app, Hnf, filter_fetch_warnings. reflexivity.
  - exists evs. by rewrite <-List.app_assoc.
  - exists evs. by rewrite <-List.app_assoc.
Qed.

(** X11. When the reader fails for some descriptor with a local URL, the
    run of [applyFonts] rejects, whatever the other requests bring and in
    whatever order: the registrar is not called, the injector is not
    entered, and the document and the registry are as before. *)
Theorem applyFonts_reader_failure (net : nat → string → FetchOutcome) (sched : nat → nat)
    (fonts : list FontInfo) (w : World) (i : nat) (font : FontInfo) :
  fonts !! i = Some font →
  isLocalFontFile font = true →
  decode_failed (net i (url font)) = true →
  ∃ e w' evs,
    applyFonts net sched fonts w = (Rejected e, w')
    ∧ document w' = document w
    ∧ imports w' = imports w
    ∧ log w' = log w ++ evs
    ∧ Forall is_loading evs.
Proof.
  intros Hi Hlocal Hfail.
  destruct (applyFonts_cases net sched fonts w)
    as (r & m & evs & Hrun & Hevs & _ & Horder & _ & _ & _ & ->).
  destruct (settleFonts_more _ _ _ _ _ _ _ Hrun) as (_ & _ & _ & Hreject & _).
  destruct Hreject as [e ->].
  { exists i, font. split; [by apply Horder|done]. }
  eexists e, _, (_ ++ evs). split_and!; [reflexivity|done|done|simpl; by rewrite List.app_assoc|].
  apply Forall_app. split; [|done].
  apply Forall_fmap, Forall_forall. by intros font' _.
Qed.

Lemma applyFonts_reader_failure_witness :
  ∃ e w', applyFonts (fun (i : nat) => unreadable_net (Error "NotReadableError")) (fun _ => 0)
            sample_fonts sample_world = (Rejected e, w')
    ∧ document w' = document sample_world
    ∧ imports w' = imports sample_world.
Proof.
  destruct (applyFonts_reader_failure
              (fun (i : nat) => unreadable_net (Error "NotReadableError")) (fun _ => 0)
              sample_fonts sample_world 2
              {| name := "Missing"; quillValue := "missing"; url := "/fonts/missing.ttf";
                 cssFamily := "Missing, serif" |} eq_refl eq_refl eq_refl)
    as (e & w' & evs & Hrun & Hdoc & Himp & _).
  exists e, w'. split_and!; [exact Hrun | exact Hdoc | exact Himp].
Defined.

(** X12. Without the font class under formats/font in the registry,
    [applyFonts] still loads the fonts and then rejects: the injector is
    not entered and the document and the registry are as before.  When no
    reader failed, the rejection is the [TypeError] of the registrar. *)
Theorem applyFonts_unregistered (net : nat → string → FetchOutcome) (sched : nat → nat)
    (fonts : list FontInfo) (w : World) :
  Quill.import "formats/font" w = None →
  ∃ e w' evs,
    applyFonts net sched fonts w = (Rejected e, w')
    ∧ document w' = document w
    ∧ imports w' = imports w
    ∧ log w' = log w ++ evs
    ∧ Forall is_loading evs
    ∧ ((∀ i font, fonts !! i = Some font → isLocalFontFile font = true →
                  decode_failed (net i (url font)) = false) →
       e = Error "TypeError: Cannot set properties of undefined (setting 'whitelist')"
       ∧ ∀ i font, fonts !! i = Some font → isLocalFontFile font = true → ESettled i ∈ evs).
Proof.
  intros Himp.
  destruct (applyFonts_cases net sched fonts w)
    as (r & m & evs & _ & Hevs & _ & Horder & Hsettled & _ & Hok & ->).
  rewrite Himp.
  assert (Hall : Forall is_loading
            (((fun font => EFetch (url font)) <$> List.filter isLocalFontFile fonts) ++ evs)).
  { apply Forall_app. split; [|done]. apply Forall_fmap, Forall_forall. by intros font' _. }
  destruct r as [[]|e].
  - eexists _, _, (_ ++ evs).
    split_and!; [reflexivity|done|done|simpl; by rewrite List.app_assoc|done|].
    intros _. split; [done|]. intros i font Hi Hlocal. apply elem_of_app. right.
    apply (Hsettled eq_refl i font), Horder. done.
  - eexists _, _, (_ ++ evs).
    split_and!; [reflexivity|done|done|simpl; by rewrite List.app_assoc|done|].
    intros Hno. exfalso. assert (Rejected e = Fulfilled ()) as [=].
    apply Hok. intros i font [Hi Hlocal]%Horder. by apply Hno.
Qed.

Lemma applyFonts_unregistered_witness :
  ∃ w', applyFonts sample_net (fun _ => 1) sample_fonts
          {| document := []; imports := ∅; log := [] |}
        = (Rejected (Error "TypeError: Cannot set properties of undefined (setting 'whitelist')"),
           w')
    ∧ document w' = [].
Proof.
  destruct (applyFonts_unregistered sample_net (fun _ => 1) sample_fonts
              {| document := []; imports := ∅; log := [] |} (lookup_empty _))
    as (e & w' & evs & Hrun & Hdoc & _ & _ & _ & Herr).
  destruct Herr as [-> _].
  { intros i font _ _. by destruct i as [|[|i]]. }
  exists w'. split; [exact Hrun | exact Hdoc].
Defined.

(** X13. A font that was loaded reaches the page: when [applyFonts]
    fulfils, and a descriptor with a local URL, the only local one of its
    name, had its file read to a non-empty data URL, and its name is not
    [__proto__], then the map handed to the injector holds that data URL
    under the name, and the text of the style element has, at the place of
    the descriptor, an [@font-face] block with that data URL as src
    followed by the two scoping rules. *)
Theorem applyFonts_loaded (net : nat → string → FetchOutcome) (sched : nat → nat)
    (fonts : list FontInfo) (w w' : World) (i : nat) (font : FontInfo) (u : string) :
  applyFonts net sched fonts w = (Fulfilled (), w') →
  fonts !! i = Some font →
  isLocalFontFile font = true →
  loaded (net i (url font)) = Some u →
  u ≠ "" →
  name font ≠ "__proto__" →
  (∀ j font', fonts !! j = Some font' → isLocalFontFile font' = true →
              name font' = name font → j = i) →
  ∃ m pre post style,
    log w' = log w ++ pre ++ EInject m :: post
    ∧ (∀ m', EInject m' ∉ pre)
    ∧ m !! name font = Some u
    ∧ getElementById styleId (document w') = Some style
    ∧ el_innerHTML style
      = cssOfFonts m (take i fonts)
        +:+ (fontFaceCss (name font) u (fontFormatInCss (url font)) +:+ quillFontCss font)
        +:+ cssOfFonts m (drop (S i) fonts).
Proof.
  intros Happly Hi Hlocal Hload Hu Hname Huniq.
  destruct (applyFonts_cases net sched fonts w)
    as (r & m & evs & Hrun & Hevs & _ & Horder & _ & Hprov & _ & Heq).
  rewrite Happly in Heq.
  destruct r as [[]|e]; [|discriminate Heq].
  destruct (Quill.import "formats/font" w) as [FontAttributor|]; [|discriminate Heq].
  simpl in Heq. injection Heq as ->.
  destruct (settleFonts_more _ _ _ _ _ _ _ Hrun) as (_ & _ & Hpresent & _).
  assert (Hm : m !! name font = Some u).
  { destruct (Hpresent eq_refl i font u) as [u' Hu']; [by apply Horder|done..|].
    destruct (Hprov _ _ Hu') as (j & font' & [Hj Hlocal']%Horder & Hname' & Hload').
    assert (j = i) as -> by by apply (Huniq j font').
    assert (font' = font) as -> by congruence. congruence. }
  destruct (injectFontStyles_style fonts m w) as (style & Hstyle & _ & Hcss).
  exists m,
    (((fun font => EFetch (url font)) <$> List.filter isLocalFontFile fonts) ++ evs
     ++ [EQuillRegister ("formats/" +:+ attrName FontAttributor) true
           (set_whitelist (quillValue <$> fonts) FontAttributor)]),
    (concat (warningOf m <$> fonts)), style.
  simpl. split_and!.
  - rewrite <-!List.app_assoc. simpl. reflexivity.
  - intros m'. rewrite !elem_of_app. intros [Hin|[Hin|Hin]].
    + apply list_elem_of_fmap in Hin as (font' & [=] & _).
    + by apply (is_loading_not_inject _ m' Hevs).
    + apply list_elem_of_singleton in Hin. discriminate Hin.
  - exact Hm.
  - exact Hstyle.
  - rewrite Hcss, (cssOfFonts_lookup m fonts i font Hi). unfold fontCss, fontFaceOf.
    destruct (isLocalFontFile_not_external font Hlocal) as [-> ->].
    rewrite Hlocal, (get_own m _ u Hm). simpl. by destruct u.
Qed.

Lemma sample_run :
  (applyFonts sample_net (fun _ => 1) sample_fonts sample_world).1 = Fulfilled ().
Proof. vm_compute. reflexivity. Qed.

Lemma applyFonts_loaded_witness :
  ∃ w' (m : gmap string string) pre post style,
    applyFonts sample_net (fun _ => 1) sample_fonts sample_world = (Fulfilled (), w')
    ∧ log w' = pre ++ EInject m :: post
    ∧ (∀ m', EInject m' ∉ pre)
    ∧ m !! "Custom" = Some "data:font/woff2;base64,d09GMgABAAAA"
    ∧ getElementById styleId (document w') = Some style
    ∧ el_innerHTML style
      = cssOfFonts m (take 1 sample_fonts)
        +:+ (fontFaceCss "Custom" "data:font/woff2;base64,d09GMgABAAAA" "woff2"
             +:+ quillFontCss {| name := "Custom"; quillValue := "custom-font";
                                 url := "/fonts/custom.woff2"; cssFamily := "Custom" |})
        +:+ cssOfFonts m (drop 2 sample_fonts).
Proof.
  pose proof sample_run as Hr.
  destruct (applyFonts sample_net (fun _ => 1) sample_fonts sample_world) as [r w'] eqn:Hrun.
  simpl in Hr. subst r.
  destruct (applyFonts_loaded sample_net (fun _ => 1) sample_fonts sample_world w' 1
              {| name := "Custom"; quillValue := "custom-font"; url := "/fonts/custom.woff2";
                 cssFamily := "Custom" |} "data:font/woff2;base64,d09GMgABAAAA"
              Hrun eq_refl eq_refl eq_refl)
    as (m & pre & post & style & Hlog & Hpre & Hm & Hstyle & Hcss).
  - discriminate.
  - discriminate.
  - intros j font' Hj _ Hname. destruct j as [|[|[|j]]]; simplify_eq/=; done.
  - exists w', m, pre, post, style.
    split_and!; [reflexivity | exact Hlog | exact Hpre | exact Hm | exact Hstyle | exact Hcss].
Defined.

(** X26. A descriptor called [__proto__] never gets its font: whatever
    the network answers for it, the map handed to the injector has no
    entry under that name, since the write is taken by the setter every
    object inherits; and when [applyFonts] fulfils, the injector, reading
    the map under that name, finds [Object.prototype] and puts an
    [@font-face] block with src [[object Object]] at the place of the
    descriptor. *)
Theorem applyFonts_proto_name (net : nat → string → FetchOutcome) (sched : nat → nat)
    (fonts : list FontInfo) (w w' : World) (i : nat) (font : FontInfo) :
  applyFonts net sched fonts w = (Fulfilled (), w') →
  fonts !! i = Some font →
  isLocalFontFile font = true →
  name font = "__proto__" →
  ∃ m pre post style,
    log w' = log w ++ pre ++ EInject m :: post
    ∧ (∀ m', EInject m' ∉ pre)
    ∧ m !! "__proto__" = None
    ∧ getElementById styleId (document w') = Some style
    ∧ el_innerHTML style
      = cssOfFonts m (take i fonts)
        +:+ (fontFaceCss "__proto__" "[object Object]" (fontFormatInCss (url font))
             +:+ quillFontCss font)
        +:+ cssOfFonts m (drop (S i) fonts).
Proof.
  intros Happly Hi Hlocal Hname.
  destruct (applyFonts_cases net sched fonts w)
    as (r & m & evs & Hrun & Hevs & _ & Horder & _ & Hprov & _ & Heq).
  rewrite Happly in Heq.
  destruct r as [[]|e]; [|discriminate Heq].
  destruct (Quill.import "formats/font" w) as [FontAttributor|]; [|discriminate Heq].
  simpl in Heq. injection Heq as ->.
  destruct (settleFonts_more _ _ _ _ _ _ _ Hrun) as (_ & _ & _ & _ & Hproto).
  assert (Hm : m !! "__proto__" = None) by apply Hproto, lookup_empty.
  destruct (injectFontStyles_style fonts m w) as (style & Hstyle & _ & Hcss).
  exists m,
    (((fun font => EFetch (url font)) <$> List.filter isLocalFontFile fonts) ++ evs
     ++ [EQuillRegister ("formats/" +:+ attrName FontAttributor) true
           (set_whitelist (quillValue <$> fonts) FontAttributor)]),
    (concat (warningOf m <$> fonts)), style.
  simpl. split_and!.
  - rewrite <-!List.app_assoc. simpl. reflexivity.
  - intros m'. rewrite !elem_of_app. intros [Hin|[Hin|Hin]].
    + apply list_elem_of_fmap in Hin as (font' & [=] & _).
    + by apply (is_loading_not_inject _ m' Hevs).
    + apply list_elem_of_singleton in Hin. discriminate Hin.
  - exact Hm.
  - exact Hstyle.
  - rewrite Hcss, (cssOfFonts_lookup m fonts i font Hi). unfold fontCss, fontFaceOf.
    destruct (isLocalFontFile_not_external font Hlocal) as [-> ->].
    rewrite Hlocal, Hname, (get_inherited m _ Hm). reflexivity.
Qed.

Lemma proto_run :
  (applyFonts (fun _ _ => FetchResponse true "OK"
                            (BlobOk (ReadLoad "data:font/woff2;base64,d09GMgABAAAA")))
     (fun _ => 0)
     [ {| name := "__proto__"; quillValue := "proto"; url := "/fonts/proto.woff2";
          cssFamily := "Proto" |} ] sample_world).1 = Fulfilled ().
Proof. vm_compute. reflexivity. Qed.

Lemma applyFonts_proto_name_witness :
  let font := {| name := "__proto__"; quillValue := "proto"; url := "/fonts/proto.woff2";
                 cssFamily := "Proto" |} in
  ∃ w' (m : gmap string string) pre post style,
    applyFonts (fun _ _ => FetchResponse true "OK"
                             (BlobOk (ReadLoad "data:font/woff2;base64,d09GMgABAAAA")))
      (fun _ => 0) [font] sample_world = (Fulfilled (), w')
    ∧ log w' = pre ++ EInject m :: post
    ∧ m !! "__proto__" = None
    ∧ getElementById styleId (document w') = Some style
    ∧ el_innerHTML style
      = fontFaceCss "__proto__" "[object Object]" "woff2" +:+ quillFontCss font.
Proof.
  intros font.
  pose proof proto_run as Hr. fold font in Hr.
  destruct (applyFonts _ _ [font] sample_world) as [r w'] eqn:Hrun.
  simpl in Hr. subst r.
  destruct (applyFonts_proto_name _ _ [font] sample_world w' 0 font Hrun eq_refl eq_refl eq_refl)
    as (m & pre & post & style & Hlog & _ & Hm & Hstyle & Hcss).
  exists w', m, pre, post, style.
  split_and!; [reflexivity | exact Hlog | exact Hm | exact Hstyle |].
  rewrite Hcss. simpl. by rewrite app_nil_r.
Defined.

Lemma filter_local_none (fonts : list FontInfo) :
  (∀ font, font ∈ fonts → isLocalFontFile font = false) →
  List.filter isLocalFontFile fonts = [].
Proof.
  induction fonts as [|font fonts IH]; intros Hnone; simpl; [done|].
  rewrite (Hnone font) by by left. apply IH. intros font' Hin. apply Hnone. by right.
Qed.

Lemma warningOf_none (m : gmap string string) (fonts : list FontInfo) :
  (∀ font, font ∈ fonts → isLocalFontFile font = false) →
  concat (warningOf m <$> fonts) = [].
Proof.
  intros Hnone. rewrite concat_warningOf.
  induction fonts as [|font fonts IH]; simpl; [done|].
  rewrite (Hnone font) by by left. simpl. apply IH. intros font' Hin. apply Hnone. by right.
Qed.

(** X14. With no descriptor that has a local URL (the empty set among
    them) and the font class registered, [applyFonts] fulfils whatever
    the network and the order of answers: nothing is requested, the map
    given to the injector is empty, and all that is logged is the call to
    the registry and the entry of the injector. *)
Theorem applyFonts_no_local (net : nat → string → FetchOutcome) (sched : nat → nat)
    (fonts : list FontInfo) (w : World) (FontAttributor : Attributor) :
  (∀ font, font ∈ fonts → isLocalFontFile font = false) →
  Quill.import "formats/font" w = Some FontAttributor →
  ∃ w', applyFonts net sched fonts w = (Fulfilled (), w')
    ∧ log w' = log w ++ [EQuillRegister ("formats/" +:+ attrName FontAttributor) true
                           (set_whitelist (quillValue <$> fonts) FontAttributor);
                         EInject ∅]
    ∧ document w' = document (injectFontStyles fonts ∅ w).
Proof.
  intros Hnone Himp.
  assert (Hnil : localFonts fonts = []).
  { apply (fmap_nil_inv snd). rewrite localFonts_snd. by apply filter_local_none. }
  unfold applyFonts. rewrite Hnil. simpl.
  rewrite (registerQuillFonts_eq fonts w FontAttributor Himp).
  eexists. split; [reflexivity|].
  rewrite !injectFontStyles_eq, warningOf_none by done. simpl.
  rewrite List.app_nil_r, <-List.app_assoc. done.
Qed.

Lemma applyFonts_no_local_witness :
  ∃ w', applyFonts sample_net (fun _ => 0)
          [ {| name := "Arial"; quillValue := "arial"; url := "";
               cssFamily := "Arial, sans-serif" |};
            {| name := "Roboto"; quillValue := "roboto";
               url := "https://fonts.googleapis.com/css?family=Roboto";
               cssFamily := "Roboto, sans-serif" |} ] sample_world = (Fulfilled (), w')
    ∧ length (document w') = 2.
Proof.
  destruct (applyFonts_no_local sample_net (fun _ => 0)
              [ {| name := "Arial"; quillValue := "arial"; url := "";
                   cssFamily := "Arial, sans-serif" |};
                {| name := "Roboto"; quillValue := "roboto";
                   url := "https://fonts.googleapis.com/css?family=Roboto";
                   cssFamily := "Roboto, sans-serif" |} ] sample_world
              {| attrName := "font"; keyName := "ql-font";
                 whitelist := ["serif"; "monospace"] |})
    as (w' & Hrun & _ & Hdoc).
  - intros font Hin. set_unfold in Hin. by destruct Hin as [->|[->|[]]].
  - apply lookup_singleton_eq.
  - exists w'. split; [exact Hrun|]. rewrite Hdoc. reflexivity.
Defined.

(** * The other variant of the helper *)

(** ** Its MIME table and its loader *)

(** X15. The MIME table of the variant is that of [fontHelper.ts] without
    the entry for eot: where [fontHelper.ts] answers
    application/vnd.ms-fontobject the variant answers
    application/octet-stream, and everywhere else the two agree. *)
Theorem variant_mime_table (url : string) :
  Variant.getFontMimeTypeFromUrl url
  = if bool_decide (getFontMimeTypeFromUrl url = "application/vnd.ms-fontobject")
    then "application/octet-stream"
    else getFontMimeTypeFromUrl url.
Proof.
  unfold Variant.getFontMimeTypeFromUrl, getFontMimeTypeFromUrl.
  repeat case_bool_decide; done.
Qed.

Lemma variant_getFontDataUri_settle (net : string → FetchOutcome) (fontUrl : string) (w : World) :
  Variant.skips fontUrl = false →
  Variant.getFontDataUri net fontUrl w
  = Variant.settleFontDataUri fontUrl (net fontUrl) (emit (EFetch fontUrl) w).
Proof.
  unfold Variant.skips, Variant.getFontDataUri.
  intros [Ht Hg]%orb_false_iff. rewrite Ht, Hg. simpl.
  by destruct (net fontUrl) as [e|[] st [e|[s|e|]]].
Qed.

(** X16. The loader of the variant answers [null] without a request for
    the empty string and for an http URL of the Google Fonts service, and
    for nothing else: for every other URL, http or not, it sends one
    request for that URL and logs at most one more line.  It never touches
    the document or the registry. *)
Theorem variant_getFontDataUri_requests (net : string → FetchOutcome) (fontUrl : string)
    (w : World) :
  let w' := (Variant.getFontDataUri net fontUrl w).2 in
  document w' = document w
  ∧ imports w' = imports w
  ∧ (Variant.skips fontUrl = true → Variant.getFontDataUri net fontUrl w = (Fulfilled None, w))
  ∧ (Variant.skips fontUrl = false →
     ∃ evs, log w' = log w ++ EFetch fontUrl :: evs
       ∧ List.filter is_fetch evs = [] ∧ length evs ≤ 1).
Proof.
  destruct (Variant.skips fontUrl) eqn:Hskip.
  - assert (Hrun : Variant.getFontDataUri net fontUrl w = (Fulfilled None, w)).
    { unfold Variant.skips in Hskip. unfold Variant.getFontDataUri.
      destruct (Js.truthy fontUrl); simpl in *; [by rewrite Hskip|done]. }
    rewrite Hrun. simpl. done.
  - rewrite variant_getFontDataUri_settle by done.
    destruct (net fontUrl) as [e|[] st [e|[s|e|]]]; simpl; split_and!; try done; intros _;
      first [ eexists [_]; rewrite <-List.app_assoc; split_and!; [reflexivity|reflexivity|simpl; lia]
            | exists []; split_and!; [reflexivity|reflexivity|simpl; lia] ].
Qed.

(** X17. On a local URL the two loaders settle alike, whatever the
    environment answers; they also leave the same world, unless the
    reader fails with an error, which only [fontHelper.ts] logs. *)
Theorem variant_getFontDataUri_local (net : string → FetchOutcome) (fontUrl : string) (w : World) :
  isLocalUrl fontUrl = true →
  (Variant.getFontDataUri net fontUrl w).1 = (getFontDataUri net fontUrl w).1
  ∧ ((∀ statusText error, net fontUrl ≠ FetchResponse true statusText (BlobOk (ReadFail error))) →
     Variant.getFontDataUri net fontUrl w = getFontDataUri net fontUrl w).
Proof.
  intros Hlocal. pose proof Hlocal as [Ht Hh%negb_true_iff]%andb_true_iff.
  rewrite variant_getFontDataUri_settle by (unfold Variant.skips; by rewrite Ht, Hh).
  rewrite getFontDataUri_local by done.
  destruct (net fontUrl) as [e|[] st [e|[s|e|]]]; simpl; split; try done.
  intros Hne. by destruct (Hne st e).
Qed.

Lemma variant_getFontDataUri_local_witness :
  let net := fun _ : string => FetchResponse false "Not Found" (BlobFail (Error "unused")) in
  let w := {| document := []; imports := ∅; log := [] |} in
  Variant.getFontDataUri net "/fonts/missing.ttf" w = getFontDataUri net "/fonts/missing.ttf" w.
Proof.
  intros net w.
  destruct (variant_getFontDataUri_local net "/fonts/missing.ttf" w eq_refl) as [_ Hsame].
  apply Hsame. intros statusText error. discriminate.
Defined.

(** ** Its injector *)

Lemma variant_injectFont_eq (m : gmap string string) (font : FontInfo) (css : string) (w : World) :
  Variant.injectFont m font (css, w)
  = (css +:+ Variant.fontCss m font, set_document (Variant.ensureLink (document w) font) w).
Proof.
  unfold Variant.injectFont, Variant.fontCss, Variant.fontFaceOf, Variant.ensureLink.
  destruct (Variant.isGoogleFontsLink font); simpl.
  { destruct (getElementById _ _); simpl; [by destruct w|done]. }
  destruct (isLocalFontFile font); simpl; [|by destruct w].
  destruct (Js.toBoolean _); simpl; [by rewrite app_assoc; destruct w|by destruct w].
Qed.

Lemma variant_injectFont_foldl (m : gmap string string) (fonts : list FontInfo) (css : string)
    (w : World) :
  foldl (fun st font => Variant.injectFont m font st) (css, w) fonts
  = (css +:+ Variant.cssOfFonts m fonts,
     set_document (foldl Variant.ensureLink (document w) fonts) w).
Proof.
  revert css w. induction fonts as [|font fonts IH]; intros css w; cbn [foldl].
  - simpl. rewrite app_nil_r. by destruct w.
  - rewrite variant_injectFont_eq, IH. simpl.
    fold (Variant.cssOfFonts m fonts). by rewrite app_assoc.
Qed.

Lemma variant_injectFontStyles_eq (fonts : list FontInfo) (m : gmap string string) (w : World) :
  Variant.injectFontStyles fonts m w
  = set_document
      (alter (set_innerHTML (Variant.cssOfFonts m fonts)) (styleIndex (document w))
             (foldl Variant.ensureLink (ensureStyle (document w)) fonts)) w.
Proof.
  unfold Variant.injectFontStyles, ensureStyle, styleIndex.
  destruct (index_of_id styleId (document w)); rewrite variant_injectFont_foldl; reflexivity.
Qed.

(** The loop of the variant only appends links, each made for a
    descriptor of the Google Fonts service. *)
Lemma variant_foldl_ensureLink_app (fonts : list FontInfo) (d : list Element) :
  ∃ links, foldl Variant.ensureLink d fonts = d ++ links
    ∧ Forall (fun e => ∃ font, font ∈ fonts ∧ Variant.isGoogleFontsLink font = true
                               ∧ e = fontLink font) links.
Proof.
  revert d. induction fonts as [|font fonts IH]; intros d; simpl.
  - exists []. by rewrite List.app_nil_r.
  - destruct (IH (Variant.ensureLink d font)) as (links & -> & Hlinks).
    assert (Hmono : Forall (fun e => ∃ font', font' ∈ font :: fonts
                                ∧ Variant.isGoogleFontsLink font' = true
                                ∧ e = fontLink font') links).
    { eapply Forall_impl; [exact Hlinks|]. intros e (font' & ? & ? & ?).
      exists font'. split_and!; [by right|done..]. }
    unfold Variant.ensureLink. destruct (Variant.isGoogleFontsLink font) eqn:Hg; [|eauto].
    destruct (getElementById (linkId font) d); [eauto|].
    exists (fontLink font :: links). unfold appendChild. rewrite <-List.app_assoc.
    split; [done|]. constructor; [|done].
    exists font. split_and!; [by left|done..].
Qed.

Lemma variant_index_of_id_style_foldl (fonts : list FontInfo) (d : list Element) :
  index_of_id styleId (foldl Variant.ensureLink (ensureStyle d) fonts) = Some (styleIndex d).
Proof.
  destruct (variant_foldl_ensureLink_app fonts (ensureStyle d)) as (links & -> & _).
  by rewrite index_of_id_app, index_of_id_ensureStyle.
Qed.

(** X18. The injector of the variant leaves the style element, found
    under its id, holding the text of the descriptors in their order,
    whatever it held before; it logs nothing, not even for a local
    descriptor without data URI, and leaves the registry alone. *)
Theorem variant_injectFontStyles_style (fonts : list FontInfo) (m : gmap string string)
    (w : World) :
  (∃ style, getElementById styleId (document (Variant.injectFontStyles fonts m w)) = Some style
     ∧ el_innerHTML style = Variant.cssOfFonts m fonts)
  ∧ log (Variant.injectFontStyles fonts m w) = log w
  ∧ imports (Variant.injectFontStyles fonts m w) = imports w.
Proof.
  rewrite variant_injectFontStyles_eq. simpl. split; [|done].
  unfold getElementById.
  rewrite index_of_id_alter by apply el_id_set_innerHTML.
  rewrite variant_index_of_id_style_foldl. simpl.
  destruct (index_of_id_lookup _ _ _ (variant_index_of_id_style_foldl fonts (document w)))
    as (e & He & Hid).
  exists (set_innerHTML (Variant.cssOfFonts m fonts) e).
  rewrite list_lookup_alter_eq, He. done.
Qed.

(** X19. The variant serves no remote URL other than the Google Fonts
    service: for a descriptor whose URL starts with http and does not
    contain fonts.googleapis.com (a stylesheet elsewhere, a font file),
    its turn appends the two scoping rules and nothing else, and leaves
    the document alone. *)
Theorem variant_injectFont_remote (m : gmap string string) (font : FontInfo) (css : string)
    (w : World) :
  Js.startsWith "http" (url font) = true →
  Js.includes "fonts.googleapis.com" (url font) = false →
  Variant.injectFont m font (css, w) = (css +:+ Variant.quillFontCss font, w).
Proof.
  intros Hh Hg. unfold Variant.injectFont, Variant.isGoogleFontsLink, isLocalFontFile.
  rewrite Hh, Hg. simpl. by rewrite !andb_false_r.
Qed.

Lemma variant_injectFont_remote_witness :
  let font := {| name := "Inter"; quillValue := "inter";
                 url := "https://cdn.example.org/fonts/inter.ttf"; cssFamily := "Inter" |} in
  let w := {| document := []; imports := ∅; log := [] |} in
  Variant.injectFont ∅ font ("", w) = (Variant.quillFontCss font, w)
  ∧ injectFont ∅ font ("", w)
    = (fontFaceCss "Inter" "https://cdn.example.org/fonts/inter.ttf" "truetype"
         +:+ quillFontCss font, w).
Proof.
  intros font w. split; [|reflexivity].
  exact (variant_injectFont_remote ∅ font "" w eq_refl eq_refl).
Defined.

(** X20. For a descriptor with a local URL the variant appends, when the
    map holds a non-empty data URI under its name, an [@font-face] block
    whose family is the cssFamily of the descriptor and whose src is the
    data URI; when the map holds the empty string there, or nothing while
    the name is not one that [Object.prototype] provides, it appends the
    scoping rules alone; when the map holds nothing there and
    [Object.prototype] provides the name, the block is appended with the
    inherited value as src.  In every case nothing is logged and the
    document is left alone. *)
Theorem variant_injectFont_local (m : gmap string string) (font : FontInfo) (css : string)
    (w : World) :
  isLocalFontFile font = true →
  let nl := String "010"%char EmptyString in
  let fontFace := fun src : string =>
    nl +:+
    "@font-face {" +:+ nl +:+
    "  font-family: '" +:+ cssFamily font +:+ "';" +:+ nl +:+
    "  src: url('" +:+ src +:+ "') format('" +:+ Variant.fontFormatInCss (url font)
      +:+ "');" +:+ nl +:+
    "  font-weight: normal;" +:+ nl +:+
    "  font-style: normal;" +:+ nl +:+
    "}" +:+ nl in
  (∀ dataUri, m !! name font = Some dataUri → dataUri ≠ "" →
     Variant.injectFont m font (css, w)
     = ((css +:+ fontFace dataUri) +:+ Variant.quillFontCss font, w))
  ∧ ((m !! name font = None ∧ Js.inherited (name font) = false) ∨ m !! name font = Some "" →
     Variant.injectFont m font (css, w) = (css +:+ Variant.quillFontCss font, w))
  ∧ (m !! name font = None → Js.inherited (name font) = true →
     Variant.injectFont m font (css, w)
     = ((css +:+ fontFace (Js.toString (Js.objectPrototype (name font))))
          +:+ Variant.quillFontCss font, w)).
Proof.
  intros Hlocal nl' fontFace.
  assert (Hg : Variant.isGoogleFontsLink font = false).
  { unfold Variant.isGoogleFontsLink. unfold isLocalFontFile in Hlocal.
    apply andb_true_iff in Hlocal as [_ Hh%negb_true_iff]. by rewrite Hh, andb_false_r. }
  assert (Hrun : Variant.injectFont m font (css, w)
                 = if Js.toBoolean (Js.get m (name font))
                   then ((css +:+ fontFace (Js.toString (Js.get m (name font))))
                           +:+ Variant.quillFontCss font, w)
                   else (css +:+ Variant.quillFontCss font, w)).
  { unfold Variant.injectFont. rewrite Hg, Hlocal. by destruct (Js.toBoolean _). }
  rewrite Hrun, toBoolean_get. split_and!.
  - intros dataUri Hm Hne. rewrite Hm, (get_own m _ dataUri Hm).
    destruct dataUri; [done|reflexivity].
  - intros [[Hm Hown] | Hm]; rewrite Hm; [by rewrite Hown|reflexivity].
  - intros Hm Hown. by rewrite Hm, Hown, (get_inherited m _ Hm).
Qed.

Lemma variant_injectFont_local_witness :
  let font := {| name := "Custom"; quillValue := "custom-font";
                 url := "/fonts/custom.eot"; cssFamily := "Custom Serif" |} in
  let w := {| document := []; imports := ∅; log := [] |} in
  let nl := String "010"%char EmptyString in
  Variant.injectFont {[ "Custom" := "data:application/octet-stream;base64,AAEC" ]} font ("", w)
  = ((nl +:+
      "@font-face {" +:+ nl +:+
      "  font-family: 'Custom Serif';" +:+ nl +:+
      "  src: url('data:application/octet-stream;base64,AAEC') format('octet-stream');"
        +:+ nl +:+
      "  font-weight: normal;" +:+ nl +:+
      "  font-style: normal;" +:+ nl +:+
      "}" +:+ nl) +:+ Variant.quillFontCss font, w).
Proof.
  intros font w nl'.
  destruct (variant_injectFont_local
              {[ "Custom" := "data:application/octet-stream;base64,AAEC" ]} font "" w eq_refl)
    as [Hface _].
  rewrite (Hface "data:application/octet-stream;base64,AAEC" (lookup_singleton_eq _ _))
    by discriminate.
  reflexivity.
Defined.

(** ** Its cleanup *)

Lemma variant_cleanupFontStyles_eq (fonts : list FontInfo) (w : World) :
  Variant.cleanupFontStyles fonts w
  = cleanupFontStyles (List.filter Variant.isGoogleFontsLink fonts) w.
Proof.
  unfold Variant.cleanupFontStyles, cleanupFontStyles.
  generalize (set_document (removeById styleId (document w)) w). intros w1.
  revert w1. induction fonts as [|font fonts IH]; intros w1; simpl; [done|].
  destruct (Variant.isGoogleFontsLink font); simpl; apply IH.
Qed.

(** X21. The cleanup of the variant does what the cleanup of
    [fontHelper.ts] does for the descriptors of the Google Fonts service
    alone: the style element is removed, and a link is looked for only
    under the ids of those descriptors.  An element under the link id of
    any other descriptor stays where it is. *)
Theorem variant_cleanupFontStyles_google (fonts : list FontInfo) (w : World) :
  Variant.cleanupFontStyles fonts w
  = cleanupFontStyles (List.filter Variant.isGoogleFontsLink fonts) w
  ∧ ∀ font k e, font ∈ fonts →
      (∀ font', font' ∈ fonts → Variant.isGoogleFontsLink font' = true →
                quillValue font' ≠ quillValue font) →
      index_of_id (linkId font) (document w) = Some k →
      document w !! k = Some e →
      e ∈ document (Variant.cleanupFontStyles fonts w).
Proof.
  split; [apply variant_cleanupFontStyles_eq|].
  intros font k e Hin Hother Hk He.
  rewrite variant_cleanupFontStyles_eq, cleanupFontStyles_eq. simpl.
  destruct (index_of_id_lookup _ _ _ Hk) as (e' & He' & Hid).
  assert (e' = e) as -> by congruence.
  assert (Hkeep : ∀ i d, i ≠ linkId font → e ∈ d → e ∈ removeById i d).
  { intros i d Hi Hd. unfold removeById.
    destruct (index_of_id i d) as [j|] eqn:Hj; [|done].
    destruct (index_of_id_lookup _ _ _ Hj) as (x & Hx & Hxid).
    apply list_elem_of_lookup in Hd as [j' Hj'].
    destruct (decide (j = j')) as [->|Hne]; [congruence|].
    apply list_elem_of_lookup.
    destruct (decide (j' < j)) as [Hlt|Hge].
    - exists j'. by rewrite list_lookup_delete_lt.
    - exists (pred j'). rewrite list_lookup_delete_ge by lia.
      replace (S (pred j')) with j' by lia. done. }
  assert (Hstart : e ∈ removeById styleId (document w)).
  { apply Hkeep; [|by apply list_elem_of_lookup_2 with k].
    intros Heq. by apply (linkId_not_styleId font). }
  revert Hstart. generalize (removeById styleId (document w)). intros d Hd.
  assert (Hg : ∀ font', font' ∈ List.filter Variant.isGoogleFontsLink fonts →
                        linkId font' ≠ linkId font).
  { intros font' [Hin' Hgoogle]%list_elem_of_In%List.filter_In Heq%linkId_inj.
    apply (Hother font'); [by apply list_elem_of_In|done..]. }
  revert d Hd. induction (List.filter Variant.isGoogleFontsLink fonts) as [|g gs IH];
    intros d Hd; simpl; [done|].
  apply IH.
  - intros font' Hin'. apply Hg. by right.
  - apply Hkeep; [|done]. apply Hg. by left.
Qed.

Lemma variant_cleanupFontStyles_google_witness :
  let remote := {| name := "Inter"; quillValue := "inter";
                   url := "https://cdn.example.org/inter.css"; cssFamily := "Inter" |} in
  let w := injectFontStyles [remote] ∅ {| document := []; imports := ∅; log := [] |} in
  fontLink remote ∈ document (Variant.cleanupFontStyles [remote] w)
  ∧ document (cleanupFontStyles [remote] w) = [].
Proof.
  intros remote w. split; [|reflexivity].
  destruct (variant_cleanupFontStyles_google [remote] w) as [_ Hstays].
  apply (Hstays remote 1 (fontLink remote)); [by left| |reflexivity|reflexivity].
  intros font' Hin. apply list_elem_of_singleton in Hin. subst font'. discriminate.
Defined.

Lemma variant_filter_foldl_ensureLink_length (i : string) (fonts : list FontInfo)
    (d : list Element) :
  length (List.filter (has_id i) (foldl Variant.ensureLink d fonts))
  ≤ Nat.max 1 (length (List.filter (has_id i) d)).
Proof.
  revert d. induction fonts as [|font fonts IH]; intros d; simpl; [lia|].
  etrans; [apply IH|].
  unfold Variant.ensureLink. destruct (Variant.isGoogleFontsLink font); [|lia].
  destruct (getElementById (linkId font) d) eqn:Hget; [lia|].
  unfold appendChild. rewrite List.filter_app, length_app. simpl.
  unfold has_id at 2. case_bool_decide as Hid; simpl; [|lia].
  simpl in Hid. subst i.
  apply getElementById_None, index_of_id_filter in Hget. rewrite Hget. simpl. lia.
Qed.

(** X22. In the variant too, injection followed by cleanup with the same
    descriptors gives the document back, when no element of the document
    carries the id of the style element or the link id of a descriptor:
    the links the injector makes are those the cleanup looks for. *)
Theorem variant_cleanup_after_inject (fonts : list FontInfo) (m : gmap string string)
    (w : World) :
  (∀ e, e ∈ document w → targeted fonts e = false) →
  document (Variant.cleanupFontStyles fonts (Variant.injectFontStyles fonts m w)) = document w.
Proof.
  intros Hfree.
  set (gfonts := List.filter Variant.isGoogleFontsLink fonts).
  assert (Hsub : ∀ font, font ∈ gfonts → font ∈ fonts).
  { intros font [Hin _]%list_elem_of_In%List.filter_In. by apply list_elem_of_In. }
  assert (Hfree' : ∀ e, e ∈ document w → targeted gfonts e = false).
  { intros e He. specialize (Hfree e He). unfold targeted in *.
    apply orb_false_iff in Hfree as [Hs Hl]. rewrite Hs. simpl.
    destruct (existsb (fun font => has_id (linkId font) e) gfonts) eqn:Hex; [|done].
    apply existsb_exists in Hex as (font & Hin%list_elem_of_In%Hsub & Hid).
    assert (existsb (fun font => has_id (linkId font) e) fonts = true) as Hcontra; [|congruence].
    apply existsb_exists. exists font. split; [by apply list_elem_of_In|done]. }
  assert (Hnone : ∀ i, (∀ e, has_id i e = true → targeted gfonts e = true) →
                       List.filter (has_id i) (document w) = []).
  { intros i Hi. apply filter_nothing. intros e He.
    destruct (has_id i e) eqn:Hid; [|done]. specialize (Hfree' e He).
    by rewrite (Hi e Hid) in Hfree'. }
  assert (Hstyle0 : List.filter (has_id styleId) (document w) = []).
  { apply Hnone. intros e He. unfold targeted. by rewrite He. }
  rewrite variant_cleanupFontStyles_eq. fold gfonts.
  destruct (variant_foldl_ensureLink_app fonts (ensureStyle (document w)))
    as (links & HD & Hlinks).
  assert (Hlinks_style : List.filter (has_id styleId) links = []).
  { apply filter_nothing. intros e He. rewrite Forall_forall in Hlinks.
    destruct (Hlinks e He) as (font & _ & _ & ->). done. }
  rewrite cleanupFontStyles_document_on.
  - rewrite variant_injectFontStyles_eq. simpl.
    destruct (index_of_id_lookup _ _ _ (variant_index_of_id_style_foldl fonts (document w)))
      as (style & Hstyle & Hid).
    rewrite filter_alter_out.
    + rewrite HD. unfold ensureStyle.
      rewrite (proj2 (index_of_id_filter styleId (document w)) Hstyle0).
      unfold appendChild. rewrite !List.filter_app.
      rewrite (filter_all _ (document w)) by (intros e He; by rewrite (Hfree' e He)).
      rewrite (filter_nothing _ [_]) by (by intros e ->%list_elem_of_singleton).
      rewrite (filter_nothing _ links); [by rewrite !List.app_nil_r|].
      intros e He. rewrite Forall_forall in Hlinks.
      destruct (Hlinks e He) as (font & Hin & Hg & ->).
      rewrite targeted_fontLink; [done|].
      apply list_elem_of_In, List.filter_In. split; [by apply list_elem_of_In|done].
    + intros e. by rewrite targeted_set_innerHTML.
    + intros e He. assert (e = style) as -> by congruence.
      unfold targeted, has_id. by rewrite Hid, bool_decide_eq_true_2.
  - rewrite variant_injectFontStyles_eq. simpl.
    rewrite filter_alter_length by apply el_id_set_innerHTML.
    rewrite HD, List.filter_app, Hlinks_style, List.app_nil_r.
    unfold ensureStyle. rewrite (proj2 (index_of_id_filter styleId (document w)) Hstyle0).
    unfold appendChild. rewrite List.filter_app, Hstyle0. simpl. lia.
  - intros font Hin. rewrite variant_injectFontStyles_eq. simpl.
    rewrite filter_alter_length by apply el_id_set_innerHTML.
    etrans; [apply variant_filter_foldl_ensureLink_length|].
    rewrite filter_ensureStyle, Hnone; [simpl; lia|].
    intros e He. unfold targeted. apply orb_true_iff. right.
    apply existsb_exists. exists font. split; [by apply list_elem_of_In|done].
Qed.

Lemma variant_cleanup_after_inject_witness :
  let roboto := {| name := "Roboto"; quillValue := "roboto";
                   url := "https://fonts.googleapis.com/css?family=Roboto";
                   cssFamily := "Roboto" |} in
  let title := {| el_tag := "title"; el_id := ""; el_rel := ""; el_href := "";
                  el_innerHTML := "Editor" |} in
  let w := {| document := [title]; imports := ∅; log := [] |} in
  length (document (Variant.injectFontStyles [roboto] ∅ w)) = 3
  ∧ document (Variant.cleanupFontStyles [roboto] (Variant.injectFontStyles [roboto] ∅ w))
    = [title].
Proof.
  intros roboto title w. split; [reflexivity|].
  apply (variant_cleanup_after_inject [roboto] ∅ w).
  intros e He. apply list_elem_of_singleton in He. by subst e.
Defined.

(** ** Its orchestrator *)

Lemma variant_settleFontDataUri_world (fontUrl : string) (o : FetchOutcome) (w : World) :
  ∃ evs, (Variant.settleFontDataUri fontUrl o w).2
         = {| document := document w; imports := imports w; log := log w ++ evs |}
    ∧ Forall is_loading evs.
Proof.
  destruct o as [e|[] st [e|[s|e|]]]; simpl;
    try (eexists [_]; split; [reflexivity|by repeat constructor]);
    exists []; by rewrite emit_nil.
Qed.

Lemma variant_settleFonts_world (net : nat → string → FetchOutcome)
    (order : list (nat * FontInfo)) (m : gmap string string) (w : World) :
  ∃ r m' evs,
    Variant.settleFonts net order m w
    = (r, m', {| document := document w; imports := imports w; log := log w ++ evs |})
    ∧ Forall is_loading evs
    ∧ ((∃ i font, (i, font) ∈ order ∧ decode_failed (net i (url font)) = true) →
       ∃ e, r = Rejected e).
Proof.
  revert m w. induction order as [|[i font] order IH]; intros m w.
  - exists (Fulfilled ()), m, []. simpl. rewrite emit_nil. split_and!; [done|constructor|].
    intros (i & font & Hin & _). by apply elem_of_nil in Hin.
  - cbn [Variant.settleFonts].
    destruct (variant_settleFontDataUri_world (url font) (net i (url font)) w)
      as (evs1 & Hw1 & Hevs1).
    assert (Hr1 : decode_failed (net i (url font)) = true →
                  ∃ e, (Variant.settleFontDataUri (url font) (net i (url font)) w).1 = Rejected e).
    { destruct (net i (url font)) as [e|[] st [e|[s|e|]]]; simpl; try done; eauto. }
    destruct (Variant.settleFontDataUri (url font) (net i (url font)) w) as [r1 w1].
    simpl in Hw1, Hr1. subst w1. destruct r1 as [dataUri|e].
    + set (m1 := if Js.truthy_value dataUri
                 then Js.set (name font) (Js.interpolate dataUri) m else m).
      destruct (IH m1 (emit (ESettled i)
                  {| document := document w; imports := imports w; log := log w ++ evs1 |}))
        as (r & m' & evs & -> & Hevs & Hreject).
      exists r, m', (evs1 ++ ESettled i :: evs). simpl.
      rewrite <-!List.app_assoc. simpl. split_and!; [done| |].
      * apply Forall_app. split; [done|]. by constructor.
      * intros (j & font' & [[= -> ->]|Hin]%elem_of_cons & Hfail).
        -- by destruct (Hr1 Hfail).
        -- apply Hreject. eauto.
    + exists (Rejected e), m, (evs1 ++ [ESettled i]). unfold emit. simpl.
      rewrite <-List.app_assoc. split_and!; [done| |eauto].
      apply Forall_app. split; [done|]. by repeat constructor.
Qed.

(** X23. In the variant the registrar runs before anything is requested.
    Without the font class in the registry the run rejects at once: no
    request is sent and nothing changes.  With it, whatever the run
    brings, the call to the registry is the first thing logged and the
    registry ends with the whitelist of the descriptors; this holds also
    for a run that rejects because a reader failed, and such a run leaves
    the document as it was. *)
Theorem variant_applyFonts_registers_first (net : nat → string → FetchOutcome)
    (sched : nat → nat) (fonts : list FontInfo) (w : World) :
  (Quill.import "formats/font" w = None →
   Variant.applyFonts net sched fonts w
   = (Rejected (Error "TypeError: Cannot set properties of undefined (setting 'whitelist')"), w))
  ∧ (∀ FontAttributor, Quill.import "formats/font" w = Some FontAttributor →
     ∃ r w' evs,
       Variant.applyFonts net sched fonts w = (r, w')
       ∧ log w' = log w ++ EQuillRegister ("formats/" +:+ attrName FontAttributor) true
                             (set_whitelist (quillValue <$> fonts) FontAttributor) :: evs
       ∧ whitelist <$> Quill.import "formats/font" w' = Some (quillValue <$> fonts)
       ∧ ((∃ i font, fonts !! i = Some font ∧ isLocalFontFile font = true
                     ∧ decode_failed (net i (url font)) = true) →
          (∃ e, r = Rejected e) ∧ document w' = document w)).
Proof.
  split.
  - intros Himp. unfold Variant.applyFonts, Variant.registerQuillFonts. by rewrite Himp.
  - intros FontAttributor Himp. unfold Variant.applyFonts.
    change (Variant.registerQuillFonts fonts w) with (registerQuillFonts fonts w).
    rewrite (registerQuillFonts_eq fonts w FontAttributor Himp).
    set (a := set_whitelist (quillValue <$> fonts) FontAttributor).
    set (p := "formats/" +:+ attrName FontAttributor).
    rewrite foldl_emit_fetch. simpl.
    set (fetches := (fun t : nat * FontInfo => EFetch (url t.2)) <$> localFonts fonts).
    set (order := completion_order sched (length (localFonts fonts)) (localFonts fonts)).
    destruct (variant_settleFonts_world net order ∅
                {| document := document w;
                   imports := <[p:=a]> (<["formats/font":=a]> (imports w));
                   log := (log w ++ [EQuillRegister p true a]) ++ fetches |})
      as (r & m & evs & -> & Hevs & Hreject). simpl.
    assert (Hwl : whitelist <$> (<[p:=a]> (<["formats/font":=a]> (imports w)) !! "formats/font")
                  = Some (quillValue <$> fonts)).
    { rewrite lookup_insert. case_decide; [done|]. by rewrite lookup_insert_eq. }
    destruct r as [[]|e].
    + eexists _, _, (fetches ++ evs ++ [EInject m]). split; [reflexivity|].
      rewrite variant_injectFontStyles_eq. unfold Quill.import. simpl.
      split_and!; [by rewrite <-!List.app_assoc | exact Hwl |].
      intros (i & font & Hi & Hlocal & Hfail). exfalso.
      destruct Hreject as [e [=]]. exists i, font. split; [|done].
      unfold order. rewrite (completion_order_perm sched _ (localFonts fonts) eq_refl).
      by apply elem_of_localFonts.
    + eexists _, _, (fetches ++ evs). split; [reflexivity|]. unfold Quill.import. simpl.
      split_and!; [by rewrite <-!List.app_assoc | exact Hwl | eauto].
Qed.

Lemma variant_sample_rejects :
  ∃ e, (Variant.applyFonts (fun (i : nat) => unreadable_net (Error "NotReadableError"))
          (fun _ => 0) sample_fonts sample_world).1 = Rejected e.
Proof. eexists. vm_compute. reflexivity. Qed.

Lemma variant_applyFonts_registers_first_witness :
  ∃ r w', Variant.applyFonts (fun (i : nat) => unreadable_net (Error "NotReadableError"))
            (fun _ => 0) sample_fonts sample_world = (r, w')
    ∧ whitelist <$> Quill.import "formats/font" w' = Some ["arial"; "custom-font"; "missing"]
    ∧ document w' = [].
Proof.
  destruct (variant_applyFonts_registers_first
              (fun (i : nat) => unreadable_net (Error "NotReadableError"))
              (fun _ => 0) sample_fonts sample_world) as [_ Hreg].
  destruct (Hreg {| attrName := "font"; keyName := "ql-font";
                    whitelist := ["serif"; "monospace"] |} (lookup_singleton_eq _ _))
    as (r & w' & evs & Hrun & _ & Hwl & Hfail).
  exists r, w'. split_and!; [exact Hrun | exact Hwl |].
  apply Hfail. exists 1. eexists. split_and!; reflexivity.
Defined.
